(** * AI-DocProof: sentence segmentation, catalog, annotation and pipeline

    A shallow embedding of [src/doc_processor.py], [src/api_client.py] and
    the worker loop of [src/gui/main_window.py], together with the
    properties of the specification that can be stated over it.

    Python strings are sequences of Unicode code points, so a [str] is a
    list of code points ([N]); offsets and [len] count code points, exactly
    as [text[a:b]] and [len(text)] do in the source. *)

From Stdlib Require Import String Ascii.
From Stdlib Require SpecFloat.
From stdpp Require Import base numbers list option.

Local Open Scope N_scope.
Local Set Warnings "-register-all".

(* ===================================================================== *)
(** ** Python strings *)
(* ===================================================================== *)

Abbreviation str := (list N).

Module Utf8.
(** Source literals are written as UTF-8 string literals and decoded to
  code points, so that ["你好。"] denotes the three code points
  U+4F60 U+597D U+3002. *)

Definition byte_val (a : ascii) : N := N_of_ascii a.

(** [need] continuation bytes are still expected for the code point whose
  high bits are accumulated in [acc]. *)
Fixpoint decode_from (need : nat) (acc : N) (s : string) : str :=
match s with
| EmptyString => []
| String a rest =>
    let b := byte_val a in
    match need with
    | O =>
        if b <? 0x80 then b :: decode_from O 0 rest
        else if b <? 0xE0 then decode_from 1%nat (N.land b 0x1F) rest
        else if b <? 0xF0 then decode_from 2%nat (N.land b 0x0F) rest
        else decode_from 3%nat (N.land b 0x07) rest
    | S n =>
        let acc' := acc * 64 + N.land b 0x3F in
        match n with
        | O => acc' :: decode_from O 0 rest
        | S _ => decode_from n acc' rest
        end
    end
end.

Definition decode (s : string) : str := decode_from O 0 s.
End Utf8.

(** [U "..."] is the Python string written between the quotes. *)
Definition U (s : string) : str := Utf8.decode s.

(** The Unicode character database is an external table.  Its ASCII part is
    written out below; for the other code points the two properties the
    regular expressions consult ([Py_UNICODE_ISDECIMAL] for [\d] and
    [Py_UNICODE_ISALNUM] for [\w]) are taken as given. *)
Class UnicodeDB := {
  uni_isdecimal : N → bool;
  uni_isalnum : N → bool
}.

Definition in_range (lo hi c : N) : bool := (lo <=? c) && (c <=? hi).

(** [Py_UNICODE_ISSPACE]: the characters [str.strip()] removes and [\s]
    matches (bidirectional type WS, B or S, or category Zs). *)
Definition py_isspace (c : N) : bool :=
  in_range 0x09 0x0D c || in_range 0x1C 0x20 c
  || (c =? 0x85) || (c =? 0xA0) || (c =? 0x1680)
  || in_range 0x2000 0x200A c
  || (c =? 0x2028) || (c =? 0x2029) || (c =? 0x202F) || (c =? 0x205F)
  || (c =? 0x3000).

Definition py_isdigit `{UnicodeDB} (c : N) : bool :=
  if c <? 0x80 then in_range 0x30 0x39 c else uni_isdecimal c.

Definition py_isword `{UnicodeDB} (c : N) : bool :=
  if c <? 0x80
  then in_range 0x30 0x39 c || in_range 0x41 0x5A c || in_range 0x61 0x7A c
       || (c =? 0x5F)
  else uni_isalnum c.

Fixpoint lstrip (s : str) : str :=
  match s with
  | c :: rest => if py_isspace c then lstrip rest else s
  | [] => []
  end.

Definition rstrip (s : str) : str := reverse (lstrip (reverse s)).

(** [s.strip()] *)
Definition strip (s : str) : str := rstrip (lstrip s).

Definition str_eqb (a b : str) : bool := bool_decide (a = b).

(** [s.startswith(p)] *)
Fixpoint startswith (p s : str) : bool :=
  match p, s with
  | [], _ => true
  | a :: p', b :: s' => (a =? b) && startswith p' s'
  | _ :: _, [] => false
  end.

(** [s.endswith(p)] *)
Definition endswith (p s : str) : bool := startswith (reverse p) (reverse s).

(** [p in s] for two strings *)
Fixpoint contains (p s : str) : bool :=
  startswith p s ||
  match s with
  | [] => false
  | _ :: s' => contains p s'
  end.

(** [text[a:b]] for [0 <= a], [0 <= b] *)
Definition slice (a b : nat) (text : str) : str := take (b - a) (drop a text).

(* ===================================================================== *)
(** ** Regular expressions ([re.search]) *)
(* ===================================================================== *)

Module Re.

(** Character sets: the [\d], [\w], [\s] classes and bracket expressions. *)
Inductive cset :=
| Digit                       (* \d *)
| Word                        (* \w *)
| Space                       (* \s *)
| Range (lo hi : N)           (* a-z inside brackets *)
| OneOf (cs : str)            (* listed characters *)
| Union (a b : cset).

Fixpoint mem `{UnicodeDB} (cs : cset) (c : N) : bool :=
match cs with
| Digit => py_isdigit c
| Word => py_isword c
| Space => py_isspace c
| Range lo hi => in_range lo hi c
| OneOf l => existsb (N.eqb c) l
| Union a b => mem a c || mem b c
end.

(** The fragment of Python's pattern language the source uses. *)
Inductive regex :=
| Lit (s : str)               (* a literal run of characters *)
| Set_ (cs : cset)            (* one character of a class *)
| Cat (r1 r2 : regex)         (* r1 r2 *)
| Alt (r1 r2 : regex)         (* r1|r2 *)
| Opt (r : regex)             (* r? (greedy) *)
| Plus (cs : cset)            (* [cs]+ (greedy) *)
| Ahead (r : regex)           (* (?=r) *)
| Eos.                        (* $ *)

Section Exec.
Context `{UnicodeDB}.

(** Greedy [cs+]: take as many characters as possible, giving one back
at a time while the rest of the pattern fails. *)
Fixpoint plus_loop (cs : cset) (s : str) (k : str → option str)
  : option str :=
  match s with
  | c :: s' =>
  if mem cs c then
    match plus_loop cs s' k with
    | Some r => Some r
    | None => k s'
    end
  else None
  | [] => None
  end.

Fixpoint lit_rest (l s : str) : option str :=
  match l, s with
  | [], _ => Some s
  | a :: l', b :: s' => if a =? b then lit_rest l' s' else None
  | _ :: _, [] => None
  end.

(** Backtracking matcher in continuation-passing style: [exec r s k]
matches [r] at the front of [s] and hands the unconsumed input to
[k]; alternatives are tried in the order the engine tries them, so
the first success is the match Python reports. *)
Fixpoint exec (r : regex) (s : str) (k : str → option str) : option str :=
  match r with
  | Lit l => match lit_rest l s with Some s' => k s' | None => None end
  | Set_ cs =>
  match s with
  | c :: s' => if mem cs c then k s' else None
  | [] => None
  end
  | Cat r1 r2 => exec r1 s (λ s1, exec r2 s1 k)
  | Alt r1 r2 =>
  match exec r1 s k with
  | Some x => Some x
  | None => exec r2 s k
  end
  | Opt r1 =>
  match exec r1 s k with
  | Some x => Some x
  | None => k s
  end
  | Plus cs => plus_loop cs s k
  | Ahead r1 =>
  match exec r1 s Some with
  | Some _ => k s
  | None => None
  end
  | Eos =>
  (* end of string, or just before a newline that ends the string *)
  match s with
  | [] => k s
  | [c] => if c =? 0x0A then k s else None
  | _ => None
  end
  end.

(** [re.match]: the input left after the match, if there is one. *)
Definition match_here (r : regex) (s : str) : option str := exec r s Some.

(** [re.search(r, s)]: the leftmost match; [(start, end)] offsets. *)
Fixpoint search_from (r : regex) (s : str) (start : nat)
  : option (nat * nat) :=
  match match_here r s with
  | Some rest => Some (start, (start + (length s - length rest))%nat)
  | None =>
  match s with
  | [] => None
  | _ :: s' => search_from r s' (S start)
  end
  end.

Definition search (r : regex) (s : str) : option (nat * nat) :=
  search_from r s 0%nat.

(** [bool(re.search(r, s))] *)
Definition found (r : regex) (s : str) : bool :=
  match search r s with Some _ => true | None => false end.
End Exec.
End Re.

(* ===================================================================== *)
(** ** [DocProcessor]: rules, document model and state *)
(* ===================================================================== *)

Import Re.

Definition space_or_newline : cset := Union Space (OneOf [0x0A]).

(** [self.sentence_end_pattern]:
    [(。？！|\.[\s\n]|\?|!)["\'\'\'"]?(?=$|[\s\n])].
    The first alternative is the three-character run 。？！, not a class. *)
Definition sentence_end_pattern : regex :=
  Cat (Alt (Lit (U "。？！"))
      (Alt (Cat (Lit (U ".")) (Set_ space_or_newline))
      (Alt (Lit (U "?"))
           (Lit (U "!")))))
 (Cat (Opt (Set_ (OneOf [0x22; 0x27])))
      (Ahead (Alt Eos (Set_ space_or_newline)))).

Definition ascii_letter : cset := Union (Range 0x41 0x5A) (Range 0x61 0x7A).

(** [self.exclude_patterns], in the order of the list. *)
Definition exclude_patterns : list regex :=
  [ Cat (Plus Digit) (Cat (Lit (U ".")) (Plus Digit));     (* \d+\.\d+ *)
    Cat (Set_ ascii_letter) (Lit (U "."));                 (* [A-Za-z]\. *)
    Lit (U "Dr.");                                         (* Dr\. *)
    Lit (U "Mr.");                                         (* Mr\. *)
    Lit (U "Mrs.");                                        (* Mrs\. *)
    Lit (U "Ms.");                                         (* Ms\. *)
    Lit (U "etc.");                                        (* etc\. *)
    Lit (U "e.g.");                                        (* e\.g\. *)
    Lit (U "i.e.");                                        (* i\.e\. *)
    Lit (U "Fig.");                                        (* Fig\. *)
    Lit (U "Tab.");                                        (* Tab\. *)
    Lit (U "Eq.");                                         (* Eq\. *)
    Lit (U "Ref.");                                        (* Ref\. *)
    Lit (U "Vol.");                                        (* Vol\. *)
    Lit (U "No.");                                         (* No\. *)
    Lit (U "p.");                                          (* p\. *)
    Lit (U "pp.");                                         (* pp\. *)
    Lit (U "et al.");                                      (* et al\. *)
    Cat (Plus Word) (Cat (Lit (U ".")) (Plus Word));       (* \w+\.\w+ *)
    Cat (Set_ (Range 0x41 0x5A))
        (Cat (Lit (U ".")) (Set_ (Range 0x41 0x5A)));      (* [A-Z]\.[A-Z] *)
    Lit (U "Ph.D");                                        (* Ph\.D *)
    Cat (Plus Digit) (Lit (U "."))                         (* \d+\. *)
  ].

(** A run of a paragraph, with the font attributes the annotation sets. *)
Record Run := {
  run_text : str;
  run_color : option (N * N * N);
  run_bold : option bool;
  run_italic : option bool
}.

(** [paragraph.runs] *)
Abbreviation Paragraph := (list Run).

(** [paragraph.text]: the text of the runs, joined. *)
Definition paragraph_text (p : Paragraph) : str := concat (run_text <$> p).

Abbreviation Cell := (list Paragraph).      (* cell.paragraphs *)
Abbreviation Row := (list Cell).            (* row.cells *)
Abbreviation Table := (list Row).           (* table.rows *)

Record Document := {
  paragraphs : list Paragraph;              (* document.paragraphs *)
  tables : list Table                       (* document.tables *)
}.

(** The dictionaries stored in [self.sentence_positions]; the constructor
    is the ['type'] entry. *)
Inductive Position :=
| InParagraph (paragraph_index start end_ : nat) (text : str)
| InTable (table_index row_index cell_index paragraph_index start end_ : nat)
          (text : str).

Record DocProcessor := {
  file_path : option str;
  document : option Document;
  sentences : list str;
  sentence_positions : list Position
}.

(** [self.sentences.append(s); self.sentence_positions.append(pos)] *)
Definition append_sentence (self : DocProcessor) (s : str) (pos : Position)
  : DocProcessor :=
  {| file_path := file_path self;
     document := document self;
     sentences := sentences self ++ [s];
     sentence_positions := sentence_positions self ++ [pos] |}.

(** Truth value of a string: non-empty. *)
Definition truthy (s : str) : bool :=
  match s with [] => false | _ :: _ => true end.

(* ===================================================================== *)
(** ** [DocProcessor.split_into_sentences] *)
(* ===================================================================== *)

Section Segmentation.
Context `{UnicodeDB}.

(** [any(re.search(p, sentence) for p in self.exclude_patterns)] *)
Definition matches_exclude_pattern (sentence : str) : bool :=
existsb (λ pattern, found pattern sentence) exclude_patterns.

(** [len(sentence) < 5 and sentence.endswith('.')] *)
Definition short_with_period (sentence : str) : bool :=
bool_decide (length sentence < 5)%nat && endswith (U ".") sentence.

(** [is_excluded] as the loop over top-level paragraphs computes it
  (lines 124-134). *)
Definition is_excluded_paragraph (sentence : str) : bool :=
short_with_period sentence || matches_exclude_pattern sentence.

(** [is_excluded] as the loop over table cells computes it
  (lines 180-184). *)
Definition is_excluded_table (sentence : str) : bool :=
matches_exclude_pattern sentence.

(** One iteration of the [while] loop, as a record of what it examined:
  the candidate [text[start:end]], its stripped text and the verdict of
  the exclusion check.  The source keeps only the accepted candidates;
  the log of all of them is carried along for the partition property. *)
Record Candidate := {
cand_start : nat;
cand_end : nat;
cand_sentence : str;
cand_excluded : bool
}.

(** [not is_excluded and sentence] *)
Definition accepted (c : Candidate) : bool :=
negb (cand_excluded c) && truthy (cand_sentence c).

(** The [while current_pos < len(text)] loop, shared by both copies in
  the source: [excluded] is the exclusion check of the copy and
  [position] builds its dictionary.  Python's loop has no bound; here
  every iteration spends one unit of [fuel] and [None] stands for a loop
  that is still running when the fuel is gone. *)
Fixpoint while_loop (fuel : nat) (excluded : str → bool)
  (position : nat → nat → str → Position)
  (text : str) (current_pos : nat)
  (self : DocProcessor) (log : list Candidate)
: option (DocProcessor * list Candidate) :=
if bool_decide (current_pos < length text)%nat then
  match fuel with
  | O => None
  | S fuel' =>
      match search sentence_end_pattern (drop current_pos text) with
      | Some (_, match_end) =>
          let end_pos := (current_pos + match_end)%nat in
          let sentence := strip (slice current_pos end_pos text) in
          let is_excluded := excluded sentence in
          let self' :=
            if negb is_excluded && truthy sentence
            then append_sentence self sentence
                   (position current_pos end_pos sentence)
            else self in
          while_loop fuel' excluded position text end_pos self'
            (log ++ [{| cand_start := current_pos; cand_end := end_pos;
                        cand_sentence := sentence;
                        cand_excluded := is_excluded |}])
      | None =>
          let sentence := strip (drop current_pos text) in
          let self' :=
            if truthy sentence
            then append_sentence self sentence
                   (position current_pos (length text) sentence)
            else self in
          Some (self',
                log ++ [{| cand_start := current_pos;
                           cand_end := length text;
                           cand_sentence := sentence;
                           cand_excluded := false |}])
      end
  end
else Some (self, log).

(** The body of a paragraph loop: skip blank paragraphs, otherwise scan
  the text from offset 0.  The match consumes at least one character per
  iteration, so [length text] iterations are enough (see
  [segment_terminates]). *)
Definition segment (excluded : str → bool)
  (position : nat → nat → str → Position)
  (paragraph : Paragraph) (self : DocProcessor)
: option (DocProcessor * list Candidate) :=
let text := paragraph_text paragraph in
if negb (truthy (strip text)) then Some (self, [])
else while_loop (length text) excluded position text 0 self [].

(** [for i, x in enumerate(xs): body], counting from [i]. *)
Fixpoint for_enumerate {A} (body : nat → A → DocProcessor → option DocProcessor)
  (i : nat) (xs : list A) (self : DocProcessor) : option DocProcessor :=
match xs with
| [] => Some self
| x :: xs' => self' ← body i x self; for_enumerate body (S i) xs' self'
end.

(** Lines 107-160. *)
Definition paragraph_body (para_index : nat) (paragraph : Paragraph)
  (self : DocProcessor) : option DocProcessor :=
fst <$> segment is_excluded_paragraph (InParagraph para_index)
          paragraph self.

(** Lines 166-214. *)
Definition cell_paragraph_body (table_index row_index cell_index : nat)
  (para_index : nat) (paragraph : Paragraph) (self : DocProcessor)
: option DocProcessor :=
fst <$> segment is_excluded_table
          (InTable table_index row_index cell_index para_index)
          paragraph self.

(** Lines 163-165: tables, rows and cells in order. *)
Definition table_body (table_index : nat) (table : Table)
: DocProcessor → option DocProcessor :=
for_enumerate (λ row_index (row : Row),
  for_enumerate (λ cell_index (cell : Cell),
    for_enumerate (cell_paragraph_body table_index row_index cell_index)
      0%nat cell)
    0%nat row)
  0%nat table.

(** [split_into_sentences]: the new state and the returned list. *)
Definition split_into_sentences (self : DocProcessor)
: option (DocProcessor * list str) :=
match document self with
| None => Some (self, [])
| Some doc =>
    let self0 := {| file_path := file_path self;
                    document := document self;
                    sentences := [];
                    sentence_positions := [] |} in
    self1 ← for_enumerate paragraph_body 0%nat (paragraphs doc) self0;
    self2 ← for_enumerate table_body 0%nat (tables doc) self1;
    Some (self2, sentences self2)
end.
End Segmentation.

(* ===================================================================== *)
(** ** [DocProcessor.add_comment] *)
(* ===================================================================== *)

(** [l[i]] on a Python list: a negative index counts from the end, and
    [None] stands for [IndexError]. *)
Definition py_index {A} (l : list A) (i : Z) : option A :=
  if (0 <=? i)%Z then l !! Z.to_nat i
  else if (- Z.of_nat (length l) <=? i)%Z
       then l !! Z.to_nat (Z.of_nat (length l) + i)
       else None.

(** [paragraph.add_run(text)] *)
Definition add_run (paragraph : Paragraph) (text : str) : Paragraph :=
  paragraph ++ [{| run_text := text; run_color := None;
                   run_bold := None; run_italic := None |}].

(** The run [_add_comment_to_paragraph] appends last: blue, bold, italic. *)
Definition comment_run (comment_text : str) : Run :=
  {| run_text := U "[校对建议: " ++ comment_text ++ U "]";
     run_color := Some (0, 0, 255);
     run_bold := Some true;
     run_italic := Some true |}.

(** [_add_comment_to_paragraph]: the paragraph after the call.  The text is
    read first, every run is removed, and three runs are added. *)
Definition add_comment_to_paragraph (paragraph : Paragraph)
    (start end_ : nat) (comment_text : str) : Paragraph :=
  let text := paragraph_text paragraph in
  let cleared : Paragraph := [] in
  add_run (add_run cleared text) (U " ") ++ [comment_run comment_text].

(** [table.rows[r].cells[c].paragraphs[p]] of [document.tables[t]];
    [None] is [IndexError]. *)
Definition cell_paragraph (doc : Document) (t r c p : nat) : option Paragraph :=
  table ← tables doc !! t;
  row ← (table : Table) !! r;
  cell ← (row : Row) !! c;
  (cell : Cell) !! p.

Definition set_paragraph (doc : Document) (i : nat) (new : Paragraph) : Document :=
  {| paragraphs := <[i := new]> (paragraphs doc); tables := tables doc |}.

Definition set_cell_paragraph (doc : Document) (t r c p : nat) (new : Paragraph)
  : Document :=
  {| paragraphs := paragraphs doc;
     tables := alter (alter (alter (<[p := new]>) c) r) t (tables doc) |}.

Definition with_document (self : DocProcessor) (doc : Document) : DocProcessor :=
  {| file_path := file_path self;
     document := Some doc;
     sentences := sentences self;
     sentence_positions := sentence_positions self |}.

(** [add_comment(sentence_index, comment_text)]: the state after the call
    and the returned flag.  Every [IndexError] lands in the [except] branch
    and gives [False]. *)
Definition add_comment (self : DocProcessor) (sentence_index : Z)
    (comment_text : str) : DocProcessor * bool :=
  match document self with
  | None => (self, false)
  | Some doc =>
      if (Z.of_nat (length (sentence_positions self)) <=? sentence_index)%Z
      then (self, false)
      else
        match py_index (sentence_positions self) sentence_index with
        | None => (self, false)
        | Some position =>
            let annotated :=
              match position with
              | InParagraph paragraph_index start end_ _ =>
                  paragraph ← paragraphs doc !! paragraph_index;
                  Some (set_paragraph doc paragraph_index
                          (add_comment_to_paragraph paragraph start end_
                             comment_text))
              | InTable t r c p start end_ _ =>
                  paragraph ← cell_paragraph doc t r c p;
                  Some (set_cell_paragraph doc t r c p
                          (add_comment_to_paragraph paragraph start end_
                             comment_text))
              end in
            match annotated with
            | None => (self, false)
            | Some doc' =>
                (* the log line reads self.sentences[sentence_index] *)
                match py_index (sentences self) sentence_index with
                | Some _ => (with_document self doc', true)
                | None => (with_document self doc', false)
                end
            end
        end
  end.

(* ===================================================================== *)
(** ** [DocProcessor.save_document] *)
(* ===================================================================== *)

Module Path.
(** [os.path] for POSIX paths ([posixpath]). *)

Definition sep : N := 0x2F.
Definition extsep : N := 0x2E.

Fixpoint rfind_from (c : N) (s : str) (i : nat) (last : Z) : Z :=
match s with
| [] => last
| x :: s' => rfind_from c s' (S i) (if x =? c then Z.of_nat i else last)
end.

(** [s.rfind(c)]: the last index of [c], or -1. *)
Definition rfind (c : N) (s : str) : Z := rfind_from c s 0 (-1).

Fixpoint lstrip_char (c : N) (s : str) : str :=
match s with
| x :: s' => if x =? c then lstrip_char c s' else s
| [] => []
end.

(** [s.rstrip(c)] *)
Definition rstrip_char (c : N) (s : str) : str :=
reverse (lstrip_char c (reverse s)).

Definition dirname (p : str) : str :=
let i := Z.to_nat (rfind sep p + 1) in
let head := take i p in
if truthy head && negb (forallb (N.eqb sep) head)
then rstrip_char sep head
else head.

Definition basename (p : str) : str :=
drop (Z.to_nat (rfind sep p + 1)) p.

(** [splitext]: split at the last dot of the last component, unless only
  dots precede it there. *)
Definition splitext (p : str) : str * str :=
let sepIndex := rfind sep p in
let dotIndex := rfind extsep p in
if (sepIndex <? dotIndex)%Z then
  let leading := slice (Z.to_nat (sepIndex + 1)) (Z.to_nat dotIndex) p in
  if forallb (N.eqb extsep) leading
  then (p, [])
  else (take (Z.to_nat dotIndex) p, drop (Z.to_nat dotIndex) p)
else (p, []).

(** [os.path.join(a, b)] *)
Definition join (a b : str) : str :=
if startswith [sep] b then b
else if negb (truthy a) || endswith [sep] a then a ++ b
else a ++ [sep] ++ b.
End Path.

Record datetime := {
  year : nat; month : nat; day : nat;
  hour : nat; minute : nat; second : nat
}.

Definition digit (n : nat) : N := 0x30 + N.of_nat (n mod 10).

Definition pad2 (n : nat) : str := [digit (n / 10); digit n].

Definition pad4 (n : nat) : str :=
  [digit (n / 1000); digit (n / 100); digit (n / 10); digit n].

(** [now.strftime("%Y%m%d%H%M%S")], for a four-digit year. *)
Definition strftime_YmdHMS (now : datetime) : str :=
  pad4 (year now) ++ pad2 (month now) ++ pad2 (day now)
  ++ pad2 (hour now) ++ pad2 (minute now) ++ pad2 (second now).

(** Exceptions, by class; the message text is not modelled. *)
Inductive exn := TypeError | IndexError | KeyError | AttributeError
               | OtherError (description : str).

(** What [save_document] returns: [(True, path)], [(False, "文档未加载")]
    or [(False, "保存文档失败: ...")]. *)
Inductive SaveResult :=
| Saved (output_path : str)
| NotLoaded
| SaveFailed (e : exn).

(** The file system and the clock, as [save_document] sees them. *)
Record Storage := {
  path_exists : str → bool;                 (* os.path.exists *)
  now : datetime;                           (* datetime.datetime.now() *)
  write : Document → str → option exn       (* document.save; None: written *)
}.

(** Lines 324-333: the output path derived from [self.file_path]. *)
Definition default_output_path (fs : Storage) (file_path : str) : str :=
  let file_dir := Path.dirname file_path in
  let file_name := Path.basename file_path in
  let '(name, ext) := Path.splitext file_name in
  let output_path := Path.join file_dir (name ++ U "_AI校对" ++ ext) in
  if path_exists fs output_path then
    let timestamp := strftime_YmdHMS (now fs) in
    Path.join file_dir (name ++ U "_AI校对_" ++ timestamp ++ ext)
  else output_path.

Definition save_document (fs : Storage) (self : DocProcessor)
    (output_path : option str) : SaveResult :=
  match document self with
  | None => NotLoaded
  | Some doc =>
      let target :=
        match output_path with
        | Some p => Some p
        | None =>
            match file_path self with
            | Some fp => Some (default_output_path fs fp)
            | None => None          (* os.path.dirname(None): TypeError *)
            end
        end in
      match target with
      | None => SaveFailed TypeError
      | Some p =>
          match write fs doc p with
          | None => Saved p
          | Some e => SaveFailed e
          end
      end
  end.

(* ===================================================================== *)
(** ** [ApiClient.proofread_sentence] *)
(* ===================================================================== *)

(** Values produced by [json.loads] and [response.json()]. *)
Inductive json :=
| JNull
| JBool (b : bool)
| JInt (z : Z)
| JFloat (f : SpecFloat.spec_float)
| JStr (s : str)
| JList (items : list json)
| JDict (entries : list (str * json)).

(** Truth value of a JSON value, as [if result['wrong']:] tests it. *)
Definition json_truthy (v : json) : bool :=
  match v with
  | JNull => false
  | JBool b => b
  | JInt z => negb (z =? 0)%Z
  | JFloat f => match f with SpecFloat.S754_zero _ => false | _ => true end
  | JStr s => truthy s
  | JList l => match l with [] => false | _ => true end
  | JDict d => match d with [] => false | _ => true end
  end.

Definition is_str (key : str) (v : json) : bool :=
  match v with JStr s => str_eqb s key | _ => false end.

(** [d.get(key)] on the entries of a dictionary. *)
Fixpoint dict_get (key : str) (d : list (str * json)) : option json :=
  match d with
  | [] => None
  | (k, v) :: d' => if str_eqb k key then Some v else dict_get key d'
  end.

(** [key in v] for a string [key]: a key of a dictionary, an element of a
    list, a substring of a string; on any other value a [TypeError]. *)
Definition py_in (key : str) (v : json) : exn + bool :=
  match v with
  | JDict d => inr (bool_decide (is_Some (dict_get key d)))
  | JList l => inr (existsb (is_str key) l)
  | JStr s => inr (contains key s)
  | _ => inl TypeError
  end.

(** [v[key]] for a string [key]. *)
Definition py_getitem (key : str) (v : json) : exn + json :=
  match v with
  | JDict d => match dict_get key d with Some x => inr x | None => inl KeyError end
  | _ => inl TypeError
  end.

(** [len(v)] *)
Definition py_len (v : json) : exn + nat :=
  match v with
  | JDict d => inr (length d)
  | JList l => inr (length l)
  | JStr s => inr (length s)
  | _ => inl TypeError
  end.

(** [v[0]] *)
Definition py_first (v : json) : exn + json :=
  match v with
  | JList (x :: _) => inr x
  | JList [] => inl IndexError
  | JStr (c :: _) => inr (JStr [c])
  | JStr [] => inl IndexError
  | JDict _ => inl KeyError
  | _ => inl TypeError
  end.

(** What [requests.post] and [response.json()] give back. *)
Inductive HttpOutcome :=
| RequestRaised (e : exn)
| Response (status_code : Z) (body : exn + json).

(** The second component of the returned pair when the first is [False]. *)
Inductive ProofreadError :=
| EmptySentence                   (* 句子为空，跳过校对 *)
| BadStatus (status_code : Z)     (* API请求失败，状态码: ... *)
| UnexpectedFormat (content : str)(* API返回的JSON格式不符合预期: ... *)
| InvalidJson (content : str)     (* API返回的内容不是有效的JSON: ... *)
| NoContent                       (* API响应中没有找到有效内容 *)
| Raised (e : exn).               (* 校对句子时发生错误: ... *)

(** [(True, result)] or [(False, message)]. *)
Inductive ProofreadResult :=
| Success (result : json)
| Failure (error : ProofreadError).

Definition required_fields : list str :=
  [U "content_0"; U "wrong"; U "annotation"; U "content_1"].

Definition fence : str := U "```".

(** [s.split(sep)] for a non-empty separator: [skip] characters of a
    separator just found are still to be passed over, [cur] is the piece
    being read, reversed. *)
Fixpoint split_from (sep s : str) (skip : nat) (cur : str) : list str :=
  match s with
  | [] => [reverse cur]
  | c :: s' =>
      match skip with
      | S n => split_from sep s' n cur
      | O =>
          if startswith sep s
          then reverse cur :: split_from sep s' (length sep - 1) []
          else split_from sep s' 0 (c :: cur)
      end
  end.

Definition split (sep s : str) : list str := split_from sep s 0 [].

Section ApiClient.
(** [json.loads]; [None] is [json.JSONDecodeError]. *)
Variable json_loads : str → option json.

(** Lines 137-155: the text handed to [json.loads]. *)
Definition json_text (content : str) : str :=
let stripped := strip content in
if startswith fence stripped && contains fence (drop 3 stripped) then
  let content_parts := split fence stripped in
  if bool_decide (3 ≤ length content_parts)%nat then
    match content_parts !! 1%nat with
    | Some json_content =>
        if startswith (U "json") json_content
        then strip (drop 4 json_content)
        else strip json_content
    | None => content
    end
  else content
else content.

(** [all(key in result for key in keys)]: stops at the first key that is
  missing, and raises where [in] raises. *)
Fixpoint all_in (keys : list str) (result : json) : exn + bool :=
match keys with
| [] => inr true
| key :: rest =>
    match py_in key result with
    | inl e => inl e
    | inr false => inr false
    | inr true => all_in rest result
    end
end.

(** Lines 157-162. *)
Definition check_fields (content : str) (result : json) : ProofreadResult :=
match all_in required_fields result with
| inl e => Failure (Raised e)
| inr true => Success result
| inr false => Failure (UnexpectedFormat content)
end.

(** Lines 131-168, once [response_data] is known. *)
Definition extract (response_data : json) : ProofreadResult :=
match py_in (U "choices") response_data with
| inl e => Failure (Raised e)
| inr false => Failure NoContent
| inr true =>
    match py_getitem (U "choices") response_data with
    | inl e => Failure (Raised e)
    | inr choices =>
        match py_len choices with
        | inl e => Failure (Raised e)
        | inr O => Failure NoContent
        | inr (S _) =>
            match py_first choices with
            | inl e => Failure (Raised e)
            | inr choice =>
                match py_getitem (U "message") choice with
                | inl e => Failure (Raised e)
                | inr message =>
                    match py_getitem (U "content") message with
                    | inl e => Failure (Raised e)
                    | inr (JStr content) =>
                        match json_loads (json_text content) with
                        | None => Failure (InvalidJson content)
                        | Some result => check_fields content result
                        end
                    | inr _ => Failure (Raised AttributeError)
                    end
                end
            end
        end
    end
end.

(** [proofread_sentence(sentence)], given the outcome of the request. *)
Definition proofread_sentence (http : HttpOutcome) (sentence : str)
: ProofreadResult :=
if negb (truthy (strip sentence)) then Failure EmptySentence
else
  match http with
  | RequestRaised e => Failure (Raised e)
  | Response status_code body =>
      if negb (status_code =? 200)%Z then Failure (BadStatus status_code)
      else
        match body with
        | inl e => Failure (Raised e)
        | inr response_data => extract response_data
        end
  end.
End ApiClient.

(* ===================================================================== *)
(** ** [LogManager] and [ProofreadWorker.run] *)
(* ===================================================================== *)

(** The texts [log_sentence], [log_error] and [finish_logging] return, by
    shape; the elapsed time of the summary is not modelled. *)
Inductive LogText :=
| FoundError (sentence annotation : str)   (* 正在校对：…发现错误：…已在文档中批注 *)
| NoError (sentence : str)                 (* 正在校对：…没有错误 *)
| ProcessError (sentence : str) (error : ProofreadError)
                                           (* 正在校对：…处理错误：… *)
| Summary (total_count error_count : nat) (save_path : str).
                                           (* 校对完成！… *)

(** The dictionaries appended to [self.logs], without their ['time']. *)
Inductive LogEntry :=
| Checked (sentence : str) (has_error : bool) (annotation corrected : str)
| ProcessFailed (sentence : str) (error_message : ProofreadError).

Record LogManager := {
  logs : list LogEntry;
  error_count : nat;
  total_count : nat;
  save_path : option str
}.

Definition start_logging (lm : LogManager) : LogManager :=
  {| logs := []; error_count := 0; total_count := 0;
     save_path := save_path lm |}.

Definition log_error (lm : LogManager) (sentence : str)
    (error_message : ProofreadError) : LogManager * LogText :=
  ({| logs := logs lm ++ [ProcessFailed sentence error_message];
      error_count := error_count lm;
      total_count := total_count lm;
      save_path := save_path lm |},
   ProcessError sentence error_message).

Definition finish_logging (lm : LogManager) (path : str)
  : LogManager * LogText :=
  ({| logs := logs lm; error_count := error_count lm;
      total_count := total_count lm; save_path := Some path |},
   Summary (total_count lm) (error_count lm) path).

(** The second argument of the [finished] signal. *)
Inductive FinishMessage :=
| LoadFailed                      (* 加载文档失败 *)
| NoSentences                     (* 文档中没有找到句子 *)
| Stopped                         (* 校对已停止 *)
| Crashed (e : exn)               (* 校对过程发生错误: ... *)
| SaveOutcome (r : SaveResult).   (* the path, or the message of the failure *)

(** What the worker does that is visible outside: the signals it emits and
    the calls to the classifier. *)
Inductive Event :=
| progressUpdated (current total : nat)
| logUpdated (text : LogText)
| finished (success : bool) (message : FinishMessage)
| Classify (sentence : str).      (* api_client.proofread_sentence(sentence) *)

(** Everything outside the worker. *)
Record World := {
  open_document : str → option Document;  (* Document(path); None: it raised *)
  http : nat → str → HttpOutcome;         (* the request for sentence i *)
  is_running : nat → bool;                (* self.is_running, read in iteration i *)
  storage : Storage
}.

(** How the loop over the sentences ends. *)
Inductive LoopExit :=
| Exhausted                       (* every sentence was visited *)
| Cancelled                       (* is_running was False: return *)
| Threw (e : exn).                (* an exception reached the outer except *)

Section Worker.
Context `{UnicodeDB}.
Variable json_loads : str → option json.
(** [str(v)] for a value that is not a string. *)
Variable py_str : json → str.

Definition format_value (v : json) : str :=
match v with JStr s => s | _ => py_str v end.

(** [result.get(key, '')] *)
Definition get_or_empty (key : str) (result : json) : exn + json :=
match result with
| JDict d => inr (default (JStr []) (dict_get key d))
| _ => inl AttributeError
end.

(** [log_sentence(sentence, result, has_error)]: the counters are
  updated before the entry is built, so they keep their new values if
  building it raises. *)
Definition log_sentence (lm : LogManager) (sentence : str) (result : json)
  (has_error : bool) : LogManager * (exn + LogText) :=
if has_error then
  let counted := {| logs := logs lm;
                    error_count := S (error_count lm);
                    total_count := S (total_count lm);
                    save_path := save_path lm |} in
  match get_or_empty (U "annotation") result,
        get_or_empty (U "content_1") result with
  | inr annotation, inr corrected =>
      ({| logs := logs lm ++ [Checked sentence true
                                (format_value annotation)
                                (format_value corrected)];
          error_count := error_count counted;
          total_count := total_count counted;
          save_path := save_path lm |},
       inr (FoundError sentence (format_value annotation)))
  | inl e, _ | _, inl e => (counted, inl e)
  end
else
  ({| logs := logs lm ++ [Checked sentence false [] []];
      error_count := error_count lm;
      total_count := S (total_count lm);
      save_path := save_path lm |},
   inr (NoError sentence)).

(** [load_document(file_path)] *)
Definition load_document (w : World) (self : DocProcessor)
  (path : option str) : DocProcessor * bool :=
let target :=
  match path with
  | Some p => if truthy p then Some p else file_path self
  | None => file_path self
  end in
let self' := {| file_path := target; document := document self;
                sentences := sentences self;
                sentence_positions := sentence_positions self |} in
match target with
| None => (self', false)
| Some p =>
    if negb (truthy p) then (self', false)
    else match open_document w p with
         | Some doc => (with_document self' doc, true)
         | None => (self', false)
         end
end.

(** One iteration of the loop of [run] after the [is_running] test
  (lines 88-108): the events, the new state, and an exception if one
  escaped. *)
Definition visit (w : World) (total i : nat) (sentence : str)
  (dp : DocProcessor) (lm : LogManager)
: list Event * DocProcessor * LogManager * option exn :=
let before := [progressUpdated (S i) total; Classify sentence] in
match proofread_sentence json_loads (http w i sentence) sentence with
| Success result =>
    match py_getitem (U "wrong") result with
    | inl e => (before, dp, lm, Some e)
    | inr wrong =>
        if json_truthy wrong then
          match py_getitem (U "annotation") result with
          | inl e => (before, dp, lm, Some e)
          | inr annotation =>
              let dp' := (add_comment dp (Z.of_nat i)
                            (format_value annotation)).1 in
              match log_sentence lm sentence result true with
              | (lm', inl e) => (before, dp', lm', Some e)
              | (lm', inr log_text) =>
                  (before ++ [logUpdated log_text], dp', lm', None)
              end
          end
        else
          match log_sentence lm sentence result false with
          | (lm', inl e) => (before, dp, lm', Some e)
          | (lm', inr log_text) =>
              (before ++ [logUpdated log_text], dp, lm', None)
          end
    end
| Failure error =>
    let '(lm', log_text) := log_error lm sentence error in
    (before ++ [logUpdated log_text], dp, lm', None)
end.

(** [for i, sentence in enumerate(sentences)], counting from [i]. *)
Fixpoint sentence_loop (w : World) (total i : nat) (todo : list str)
  (dp : DocProcessor) (lm : LogManager)
: list Event * DocProcessor * LogManager * LoopExit :=
match todo with
| [] => ([], dp, lm, Exhausted)
| sentence :: rest =>
    if negb (is_running w i)
    then ([finished false Stopped], dp, lm, Cancelled)
    else
      match visit w total i sentence dp lm with
      | (events, dp', lm', Some e) => (events, dp', lm', Threw e)
      | (events, dp', lm', None) =>
          let '(later, dp'', lm'', exit) :=
            sentence_loop w total (S i) rest dp' lm' in
          (events ++ later, dp'', lm'', exit)
      end
end.

(** [ProofreadWorker.run]: the events in the order they happen, and the
  log manager afterwards.  [None] only if the segmentation of some
  paragraph does not return. *)
Definition run (w : World) (path : str) (log_manager : LogManager)
: option (list Event * LogManager) :=
let doc_processor := {| file_path := Some path; document := None;
                        sentences := []; sentence_positions := [] |} in
match load_document w doc_processor None with
| (_, false) => Some ([finished false LoadFailed], log_manager)
| (doc_processor, true) =>
    '(doc_processor, sentences) ← split_into_sentences doc_processor;
    match sentences with
    | [] => Some ([finished false NoSentences], log_manager)
    | _ :: _ =>
        let lm := start_logging log_manager in
        let total := length sentences in
        match sentence_loop w total 0 sentences doc_processor lm with
        | (events, _, lm, Cancelled) => Some (events, lm)
        | (events, _, lm, Threw e) =>
            Some (events ++ [finished false (Crashed e)], lm)
        | (events, doc_processor, lm, Exhausted) =>
            match save_document (storage w) doc_processor None with
            | Saved p =>
                let '(lm', summary) := finish_logging lm p in
                Some (events ++ [logUpdated summary;
                                 finished true (SaveOutcome (Saved p))],
                      lm')
            | failure =>
                Some (events ++ [finished false (SaveOutcome failure)], lm)
            end
        end
    end
end.
End Worker.

(* ===================================================================== *)
(** ** Vocabulary of the specification *)
(* ===================================================================== *)

Local Open Scope nat_scope.

(** The least number of characters a match of [r] consumes. *)
Fixpoint min_width (r : regex) : nat :=
  match r with
  | Lit l => length l
  | Set_ _ => 1
  | Cat r1 r2 => min_width r1 + min_width r2
  | Alt r1 r2 => min_width r1 `min` min_width r2
  | Opt _ => 0
  | Plus _ => 1
  | Ahead _ => 0
  | Eos => 0
  end.

(** Whitespace only. *)
Definition blank (s : str) : bool := forallb py_isspace s.

(** [ranges] cover [a, b) in order, each one starting where the one before
    it ended, none of them empty. *)
Fixpoint tiles (a b : nat) (ranges : list (nat * nat)) : Prop :=
  match ranges with
  | [] => a = b
  | (s, e) :: rest => s = a ∧ s < e ∧ tiles e b rest
  end.

Definition span (c : Candidate) : nat * nat := (cand_start c, cand_end c).

(** The ranges the specification counts: the spans returned and the
    candidates dropped by the exclusion policy. *)
Definition returned_or_excluded (log : list Candidate) : list (nat * nat) :=
  span <$> List.filter (λ c, accepted c || cand_excluded c) log.

(** The state with more sentences and positions appended. *)
Definition extend (self : DocProcessor) (records : list (str * Position))
  : DocProcessor :=
  {| file_path := file_path self;
     document := document self;
     sentences := sentences self ++ records.*1;
     sentence_positions := sentence_positions self ++ records.*2 |}.

(** The records the loop appends for the candidates it examined. *)
Definition records_of (position : nat → nat → str → Position)
    (log : list Candidate) : list (str * Position) :=
  (λ c, (cand_sentence c,
         position (cand_start c) (cand_end c) (cand_sentence c)))
    <$> List.filter accepted log.

Section Examined.
Context `{UnicodeDB}.

(** The candidates the [while] loop examines from [pos] on, without the
  state it threads. *)
Fixpoint candidates (fuel : nat) (excluded : str → bool) (text : str)
  (pos : nat) : list Candidate :=
if bool_decide (pos < length text) then
  match fuel with
  | O => []
  | S fuel' =>
      match search sentence_end_pattern (drop pos text) with
      | Some (_, match_end) =>
          let sentence := strip (slice pos (pos + match_end) text) in
          {| cand_start := pos; cand_end := pos + match_end;
             cand_sentence := sentence;
             cand_excluded := excluded sentence |}
          :: candidates fuel' excluded text (pos + match_end)
      | None =>
          [{| cand_start := pos; cand_end := length text;
              cand_sentence := strip (drop pos text);
              cand_excluded := false |}]
      end
  end
else [].

(** The candidates examined in a paragraph. *)
Definition examined (excluded : str → bool) (paragraph : Paragraph)
: list Candidate :=
let text := paragraph_text paragraph in
if negb (truthy (strip text)) then []
else candidates (length text) excluded text 0.

(** Every candidate carries the stripped text of its range, and one that
  is neither accepted nor excluded is the last one and is empty. *)
Definition well_formed (text : str) (log : list Candidate) : Prop :=
∀ i c, log !! i = Some c →
  cand_sentence c = strip (slice (cand_start c) (cand_end c) text) ∧
  (accepted c = false → cand_excluded c = false →
     S i = length log ∧ cand_sentence c = []).

(** The records a top-level paragraph contributes. *)
Definition paragraph_records (para_index : nat) (paragraph : Paragraph)
: list (str * Position) :=
records_of (InParagraph para_index)
  (examined is_excluded_paragraph paragraph).

(** The records a paragraph of a table cell contributes. *)
Definition cell_paragraph_records (t r c p : nat) (paragraph : Paragraph)
: list (str * Position) :=
records_of (InTable t r c p) (examined is_excluded_table paragraph).

Definition table_records (t : nat) (table : Table) : list (str * Position) :=
concat (imap (λ r (row : Row),
  concat (imap (λ c (cell : Cell),
    concat (imap (cell_paragraph_records t r c) cell)) row)) table).

(** The catalog in the order of the specification: every top-level
  paragraph in document order, then the tables in document order, each
  by rows, cells and paragraphs. *)
Definition catalog (doc : Document) : list (str * Position) :=
concat (imap paragraph_records (paragraphs doc))
++ concat (imap table_records (tables doc)).
End Examined.

(** The paragraph a position belongs to. *)
Inductive Locator :=
| TopLevel (paragraph_index : nat)
| InCell (table_index row_index cell_index paragraph_index : nat).

Definition locator (pos : Position) : Locator :=
  match pos with
  | InParagraph i _ _ _ => TopLevel i
  | InTable t r c p _ _ _ => InCell t r c p
  end.

Definition resolve (doc : Document) (loc : Locator) : option Paragraph :=
  match loc with
  | TopLevel i => paragraphs doc !! i
  | InCell t r c p => cell_paragraph doc t r c p
  end.

Definition replace_at (doc : Document) (loc : Locator) (new : Paragraph)
  : Document :=
  match loc with
  | TopLevel i => set_paragraph doc i new
  | InCell t r c p => set_cell_paragraph doc t r c p new
  end.

(** The paragraph [_add_comment_to_paragraph] leaves behind; the offsets
    it is given play no part. *)
Definition annotated (paragraph : Paragraph) (comment_text : str) : Paragraph :=
  add_comment_to_paragraph paragraph 0 0 comment_text.


Definition is_ascii_digit (c : N) : bool := in_range 0x30 0x39 c.

(** The body of a chat completion whose message is [content]. *)
Definition chat_response (content : str) : json :=
  JDict [(U "choices",
          JList [JDict [(U "message", JDict [(U "content", JStr content)])]])].

(** [v] is an object with a field [key]. *)
Definition has_field (key : str) (v : json) : bool :=
  match v with
  | JDict d => bool_decide (is_Some (dict_get key d))
  | _ => false
  end.

(** The sentences handed to the classifier, in order. *)
Definition classified (events : list Event) : list str :=
  omap (λ e, match e with Classify s => Some s | _ => None end) events.

(** A classification that failed, or that succeeded with an object. *)
Definition failure_or_object (r : ProofreadResult) : Prop :=
  match r with
  | Failure _ => True
  | Success (JDict _) => True
  | Success _ => False
  end.

(* ===================================================================== *)
(** ** Sample inputs *)
(* ===================================================================== *)

Module Sample.

Definition text_run (text : str) : Run :=
{| run_text := text; run_color := None;
   run_bold := None; run_italic := None |}.

(** A paragraph with its text in a single run. *)
Definition paragraph (text : string) : Paragraph := [text_run (U text)].

(** A character database that knows no digit or letter outside ASCII. *)
Definition ascii_only : UnicodeDB :=
{| uni_isdecimal := λ _, false; uni_isalnum := λ _, false |}.

Definition loaded (path : string) (doc : Document) : DocProcessor :=
{| file_path := Some (U path); document := Some doc;
   sentences := []; sentence_positions := [] |}.

(** Two top-level paragraphs and a table of one cell. *)
Definition small_document : Document :=
{| paragraphs := [paragraph "Hi! Go on"; paragraph "Yes? No"];
   tables := [[[[paragraph "Ok!"]]]] |}.

(** A processor whose catalog holds two sentences of paragraph 0. *)
Definition two_in_one : DocProcessor :=
{| file_path := Some (U "/tmp/report.docx");
   document := Some {| paragraphs := [paragraph "Yes? No!"]; tables := [] |};
   sentences := [U "Yes?"; U "No!"];
   sentence_positions := [InParagraph 0 0 4 (U "Yes?");
                          InParagraph 0 4 8 (U "No!")] |}.

Definition noon : datetime :=
{| year := 2025; month := 3; day := 9;
   hour := 12; minute := 0; second := 5 |}.

(** A file system where no path exists yet and every write succeeds. *)
Definition empty_disk : Storage :=
{| path_exists := λ _, false; now := noon; write := λ _ _, None |}.

(** A file system where every write fails. *)
Definition read_only_disk : Storage :=
{| path_exists := λ _, false; now := noon;
   write := λ _ _, Some (OtherError (U "read-only file system")) |}.

Definition quoted (s : str) : str := [0x22%N] ++ s ++ [0x22%N].

(** The text [["content_0", "wrong", "annotation", "content_1"]]: valid
  JSON, a list of four strings. *)
Definition list_of_names : str :=
U "[" ++ quoted (U "content_0") ++ U ", " ++ quoted (U "wrong") ++ U ", "
  ++ quoted (U "annotation") ++ U ", " ++ quoted (U "content_1") ++ U "]".

(** A parser that knows this one text. *)
Definition loads_list_of_names (text : str) : option json :=
if str_eqb text list_of_names
then Some (JList (JStr <$> required_fields))
else None.

(** A world where the document cannot be opened. *)
Definition unreadable : World :=
{| open_document := λ _, None;
   http := λ _ _, RequestRaised (OtherError (U "timeout"));
   is_running := λ _, true;
   storage := empty_disk |}.

(** A world where every request to the classifier times out and the
  document cannot be written. *)
Definition offline : World :=
{| open_document := λ _, Some small_document;
   http := λ _ _, RequestRaised (OtherError (U "timeout"));
   is_running := λ _, true;
   storage := read_only_disk |}.

Definition fresh_log : LogManager :=
{| logs := []; error_count := 0; total_count := 0; save_path := None |}.

End Sample.

(* ===================================================================== *)
(** ** Further vocabulary *)
(* ===================================================================== *)

(** The ['start'], ['end'] and ['text'] entries of a position. *)
Definition pos_start (pos : Position) : nat :=
  match pos with
  | InParagraph _ s _ _ => s
  | InTable _ _ _ _ s _ _ => s
  end.

Definition pos_end (pos : Position) : nat :=
  match pos with
  | InParagraph _ _ e _ => e
  | InTable _ _ _ _ _ e _ => e
  end.

Definition pos_text (pos : Position) : str :=
  match pos with
  | InParagraph _ _ _ t => t
  | InTable _ _ _ _ _ _ t => t
  end.

(** A record of the catalog describes a piece of the paragraph it points
    at: the paragraph exists, the offsets lie inside its text, and the
    sentence is the trimmed, non-empty text between them, stored in the
    position as well. *)
Definition describes (doc : Document) (r : str * Position) : Prop :=
  ∃ paragraph,
    resolve doc (locator r.2) = Some paragraph
    ∧ pos_text r.2 = r.1
    ∧ pos_start r.2 < pos_end r.2 ≤ length (paragraph_text paragraph)
    ∧ r.1 = strip (slice (pos_start r.2) (pos_end r.2)
                     (paragraph_text paragraph))
    ∧ r.1 ≠ [].

#[global] Instance Locator_eq_dec : EqDecision Locator.
Proof. solve_decision. Defined.

(** The character of which a Markdown fence is made. *)
Definition backtick : N := 0x60%N.

(* ===================================================================== *)
(** ** [ConfigManager], [ApiClient] configuration, [ConfigDialog] *)
(* ===================================================================== *)

(** [d[key] = value] on the entries of a dictionary: an existing key keeps
    its place, a new one goes to the end. *)
Fixpoint dict_set (key : str) (value : json) (d : list (str * json))
  : list (str * json) :=
  match d with
  | [] => [(key, value)]
  | (k, v) :: d' =>
      if str_eqb k key then (key, value) :: d'
      else (k, v) :: dict_set key value d'
  end.

(** [d.update(new)] *)
Definition dict_update (d new : list (str * json)) : list (str * json) :=
  foldl (λ acc kv, dict_set kv.1 kv.2 acc) d new.

(** [config.get(key, default)]; anything but a dictionary has no [get]. *)
Definition py_get (key : str) (dflt : json) (config : json) : exn + json :=
  match config with
  | JDict d => inr (default dflt (dict_get key d))
  | _ => inl AttributeError
  end.

(** [url.startswith(('http://', 'https://'))] *)
Definition has_scheme (url : str) : bool :=
  startswith (U "http://") url || startswith (U "https://") url.

Module ConfigManager.

Record t := {
config_file : str;
default_config : list (str * json);
config : json
}.

(** The configuration file, as the manager sees it. *)
Record Disk := {
file_exists : str → bool;          (* os.path.exists *)
load : str → exn + json;           (* open and json.load *)
dump : str → json → option exn     (* open and json.dump; None: written *)
}.

Definition load_config (disk : Disk) (self : t) : json :=
if file_exists disk (config_file self) then
  match load disk (config_file self) with
  | inr config => config
  | inl _ => JDict (default_config self)
  end
else JDict (default_config self).

(** [ConfigManager(config_file)], the defaults given. *)
Definition init (disk : Disk) (file : str) (defaults : list (str * json)) : t :=
let self := {| config_file := file; default_config := defaults;
               config := JNull |} in
{| config_file := file; default_config := defaults;
   config := load_config disk self |}.

Definition save_config (disk : Disk) (self : t) (config : option json) : bool :=
let config := default (ConfigManager.config self) config in
match dump disk (config_file self) config with
| None => true
| Some _ => false
end.

(** [update_config(new_config)]: the dictionary is updated in place before
  it is saved; a configuration that is not a dictionary has no [update]
  and the call returns [False]. *)
Definition update_config (disk : Disk) (self : t)
  (new_config : list (str * json)) : t * bool :=
match config self with
| JDict d =>
    let self' := {| config_file := config_file self;
                    default_config := default_config self;
                    config := JDict (dict_update d new_config) |} in
    (self', save_config disk self' None)
| _ => (self, false)
end.

Definition get_config (self : t) : json := config self.

Definition reset_config (disk : Disk) (self : t) : t * bool :=
let self' := {| config_file := config_file self;
                default_config := default_config self;
                config := JDict (default_config self) |} in
(self', save_config disk self' None).

(** What [validate_config] returns: [(True, "")], or [False] with the
  message for a missing field or for the form of the URL. *)
Inductive Verdict :=
| Valid
| MissingField (field : str)       (* 缺少必要的配置项: ... *)
| BadUrl.                          (* API URL 格式不正确 ... *)

Definition required : list str := [U "api_url"; U "model"; U "api_key"].

(** The loop of [validate_config]: the first field that is absent or
  empty. *)
Fixpoint first_missing (fields : list str) (config : json)
: exn + option str :=
match fields with
| [] => inr None
| field :: rest =>
    match py_in field config with
    | inl e => inl e
    | inr false => inr (Some field)
    | inr true =>
        match py_getitem field config with
        | inl e => inl e
        | inr value =>
            if json_truthy value then first_missing rest config
            else inr (Some field)
        end
    end
end.

Definition validate_config (self : t) : exn + Verdict :=
match first_missing required (config self) with
| inl e => inl e
| inr (Some field) => inr (MissingField field)
| inr None =>
    match py_getitem (U "api_url") (config self) with
    | inl e => inl e
    | inr (JStr url) =>
        if has_scheme url then inr Valid else inr BadUrl
    | inr _ => inl AttributeError
    end
end.

End ConfigManager.

Module ApiClient.

Record t := {
config : json;
api_url : json;
model : json;
api_key : json;
system_prompt : json
}.

(** [ApiClient(config)]: [config or {}], then four [get]s with [''] as the
  default. *)
Definition init (config : option json) : exn + t :=
let config :=
  match config with
  | Some c => if json_truthy c then c else JDict []
  | None => JDict []
  end in
match py_get (U "api_url") (JStr []) config,
      py_get (U "model") (JStr []) config,
      py_get (U "api_key") (JStr []) config,
      py_get (U "system_prompt") (JStr []) config with
| inr url, inr model, inr key, inr prompt =>
    inr {| config := config; api_url := url; model := model;
           api_key := key; system_prompt := prompt |}
| _, _, _, _ => inl AttributeError
end.

(** [update_config(config)]: [self.config] is rebound first; each
  attribute keeps its value when the key is absent.  On a configuration
  that is not a dictionary the first [get] raises. *)
Definition update_config (self : t) (config : json) : t * option exn :=
match py_get (U "api_url") (api_url self) config,
      py_get (U "model") (model self) config,
      py_get (U "api_key") (api_key self) config,
      py_get (U "system_prompt") (system_prompt self) config with
| inr url, inr model, inr key, inr prompt =>
    ({| config := config; api_url := url; model := model;
        api_key := key; system_prompt := prompt |}, None)
| _, _, _, _ =>
    ({| config := config; api_url := api_url self; model := model self;
        api_key := api_key self; system_prompt := system_prompt self |},
     Some AttributeError)
end.

End ApiClient.

Module ConfigDialog.

(** [get_config]: the three line edits, trimmed, and the stored prompt. *)
Definition get_config (api_url_text model_text api_key_text : str)
  (system_prompt : json) : list (str * json) :=
[(U "api_url", JStr (strip api_url_text));
 (U "model", JStr (strip model_text));
 (U "api_key", JStr (strip api_key_text));
 (U "system_prompt", system_prompt)].

(** [save_config]: the configuration emitted with [configUpdated], or
  nothing when one of the three checks fails. *)
Definition save_config (api_url_text model_text api_key_text : str)
  (system_prompt : json) : option (list (str * json)) :=
let config := get_config api_url_text model_text api_key_text system_prompt in
if negb (truthy (strip api_url_text)) then None
else if negb (truthy (strip model_text)) then None
else if negb (truthy (strip api_key_text)) then None
else Some config.

End ConfigDialog.

(** [MainWindow.update_config(config)]: the manager first, then the
    client. *)
Definition main_window_update_config (disk : ConfigManager.Disk)
    (manager : ConfigManager.t) (client : ApiClient.t)
    (config : list (str * json))
  : ConfigManager.t * ApiClient.t * option exn :=
  let '(manager', _) := ConfigManager.update_config disk manager config in
  let '(client', raised) := ApiClient.update_config client (JDict config) in
  (manager', client', raised).

(** The attributes of the client are the entries of the manager's
    configuration, [''] standing for an absent one. *)
Definition in_sync (manager : ConfigManager.t) (client : ApiClient.t) : Prop :=
  py_get (U "api_url") (JStr []) (ConfigManager.config manager)
    = inr (ApiClient.api_url client)
  ∧ py_get (U "model") (JStr []) (ConfigManager.config manager)
    = inr (ApiClient.model client)
  ∧ py_get (U "api_key") (JStr []) (ConfigManager.config manager)
    = inr (ApiClient.api_key client)
  ∧ py_get (U "system_prompt") (JStr []) (ConfigManager.config manager)
    = inr (ApiClient.system_prompt client).

(** The field is there and its value is not empty. *)
Definition filled (d : list (str * json)) (field : str) : Prop :=
  ∃ v, dict_get field d = Some v ∧ json_truthy v = true.

(* ===================================================================== *)
(** ** Reading the events of a run *)
(* ===================================================================== *)

Definition is_finished (e : Event) : bool :=
  match e with finished _ _ => true | _ => false end.

(** No [finished] signal among the events. *)
Definition quiet (events : list Event) : bool :=
  forallb (λ e, negb (is_finished e)) events.

(** The arguments of the [progressUpdated] signals, in order. *)
Definition progress_of (events : list Event) : list (nat * nat) :=
  omap (λ e, match e with
             | progressUpdated current total => Some (current, total)
             | _ => None
             end) events.

(** The entries [log_sentence] wrote, and those among them with an error
    found. *)
Definition is_checked (entry : LogEntry) : bool :=
  match entry with Checked _ _ _ _ => true | ProcessFailed _ _ => false end.

Definition is_flagged (entry : LogEntry) : bool :=
  match entry with Checked _ has_error _ _ => has_error | _ => false end.

(** The counters say what the log holds: [total_count] the sentences
    checked, [error_count] those with an error found. *)
Definition counters_agree (lm : LogManager) : Prop :=
  total_count lm = length (List.filter is_checked (logs lm))
  ∧ error_count lm = length (List.filter is_flagged (logs lm)).

(** A classification that does not call for an annotation: a failure, or
    a success whose ['wrong'] entry is not true. *)
Definition asks_nothing (r : ProofreadResult) : Prop :=
  match r with
  | Failure _ => True
  | Success result =>
      ∀ wrong, py_getitem (U "wrong") result = inr wrong →
               json_truthy wrong = false
  end.

(** The sentence and message of an entry written by [log_error]. *)
Definition failed_entry (entry : LogEntry) : option (str * ProofreadError) :=
  match entry with
  | ProcessFailed sentence error => Some (sentence, error)
  | Checked _ _ _ _ => None
  end.

(** The sentence and message of a [logUpdated] signal that reports a
    failed classification. *)
Definition failure_signal (e : Event) : option (str * ProofreadError) :=
  match e with
  | logUpdated (ProcessError sentence error) => Some (sentence, error)
  | _ => None
  end.

(** The entry is what the log holds for [sentence] after the
    classification [r]: the entry of [log_error] with the message of the
    failure, or an entry of [log_sentence]. *)
Definition records (r : ProofreadResult) (sentence : str) (entry : LogEntry)
  : Prop :=
  match r with
  | Failure error => entry = ProcessFailed sentence error
  | Success _ =>
      ∃ has_error annotation corrected,
        entry = Checked sentence has_error annotation corrected
  end.

(** [response_data['choices'][0]['message']['content']], when every step
    is there and the content is a string. *)
Definition message_content (response_data : json) : option str :=
  match py_getitem (U "choices") response_data with
  | inr choices =>
      match py_first choices with
      | inr choice =>
          match py_getitem (U "message") choice with
          | inr message =>
              match py_getitem (U "content") message with
              | inr (JStr content) => Some content
              | _ => None
              end
          | inl _ => None
          end
      | inl _ => None
      end
  | inl _ => None
  end.

(* ===================================================================== *)
(** ** The loop of [LogManager.export_logs] *)
(* ===================================================================== *)

(** [log.get('is_process_error', False)] *)
Definition is_process_error (entry : LogEntry) : bool :=
  match entry with ProcessFailed _ _ => true | Checked _ _ _ _ => false end.

(** [log.get('has_error')] *)
Definition has_error_entry (entry : LogEntry) : bool :=
  match entry with Checked _ has_error _ _ => has_error | ProcessFailed _ _ => false end.

(** The test of line 161: the entry is passed over. *)
Definition skipped (only_errors : bool) (log : LogEntry) : bool :=
  only_errors && negb (has_error_entry log) && negb (is_process_error log).

(** The entries the loop of [export_logs] writes (lines 159-178), each
    with the two numbers of its label [[i+1/len(self.logs)]]; the header
    and the time of day of an entry are left out. *)
Definition export_entries (lm : LogManager) (only_errors : bool)
  : list (nat * nat * LogEntry) :=
  omap id
    (imap (λ i log,
             if skipped only_errors log
             then None                                   (* continue *)
             else Some (S i, length (logs lm), log))
       (logs lm)).

(* ===================================================================== *)
(** ** Further sample inputs *)
(* ===================================================================== *)

Module Scenario.

(** A document of one paragraph that holds one sentence. *)
Definition greeting : Document :=
{| paragraphs := [Sample.paragraph "Hi!"]; tables := [] |}.

(** What the classifier says of that sentence. *)
Definition verdict : json :=
JDict [(U "content_0", JStr (U "Hi!"));
       (U "wrong", JBool true);
       (U "annotation", JStr (U "typo"));
       (U "content_1", JStr (U "Hi."))].

(** A parser that reads every text as [verdict]. *)
Definition loads_verdict (text : str) : option json := Some verdict.


(** A parser that reads nothing. *)
Definition loads_nothing (text : str) : option json := None.

Definition no_str (v : json) : str := [].

(** A world where the document opens, every request is answered, and
  every write succeeds. *)
Definition online : World :=
{| open_document := λ _, Some greeting;
   http := λ _ _, Response 200 (inr (chat_response (U "{}")));
   is_running := λ _, true;
   storage := Sample.empty_disk |}.

(** A document of one paragraph that holds two sentences. *)
Definition two_lines : Document :=
{| paragraphs := [Sample.paragraph "Hi! Go on"]; tables := [] |}.

(** A world where the first request times out and the others are
  answered. *)
Definition flaky : World :=
{| open_document := λ _, Some two_lines;
   http := λ j _, match j with
                  | O => RequestRaised (OtherError (U "timeout"))
                  | S _ => Response 200 (inr (chat_response (U "{}")))
                  end;
   is_running := λ _, true;
   storage := Sample.empty_disk |}.

(** The path the document of a run in [online] is written to. *)
Definition written : str := U "a_AI校对.docx".

(** A disk without a configuration file, where writing succeeds. *)
Definition blank_disk : ConfigManager.Disk :=
{| ConfigManager.file_exists := λ _, false;
   ConfigManager.load := λ _, inl (OtherError (U "no such file"));
   ConfigManager.dump := λ _ _, None |}.

Definition settings : list (str * json) :=
[(U "api_url", JStr (U "https://api.example.com/chat"));
 (U "model", JStr (U "reader"));
 (U "api_key", JStr (U "secret"))].

Definition manager : ConfigManager.t :=
{| ConfigManager.config_file := U "config.json";
   ConfigManager.default_config := settings;
   ConfigManager.config := JDict settings |}.

Definition new_model : list (str * json) := [(U "model", JStr (U "editor"))].

End Scenario.

(* ===================================================================== *)
(** ** Facts about the regular expressions *)
(* ===================================================================== *)

Section RegexFacts.
Context `{UnicodeDB}.

Lemma lit_rest_length l s s' :
  lit_rest l s = Some s' → length s' + length l = length s.
Proof.
  revert s. induction l as [|a l IH]; intros [|b s] Hs; simpl in *;
    try discriminate.
  - by inversion Hs.
  - inversion Hs; simpl; lia.
  - destruct (a =? b)%N; [|discriminate]. apply IH in Hs. lia.
Qed.

Lemma plus_loop_width cs s k x :
  plus_loop cs s k = Some x →
  ∃ s', k s' = Some x ∧ length s' + 1 ≤ length s.
Proof.
  revert x. induction s as [|c s IH]; intros x Hx; simpl in *; [discriminate|].
  destruct (mem cs c); [|discriminate].
  destruct (plus_loop cs s k) as [y|] eqn:Hy.
  - inversion Hx; subst. destruct (IH x eq_refl) as (s' & ? & ?).
    exists s'. split; [done|lia].
  - exists s. split; [done|lia].
Qed.

Lemma exec_width r s k x :
  exec r s k = Some x →
  ∃ s', k s' = Some x ∧ length s' + min_width r ≤ length s.
Proof.
  revert s k x. induction r as [l|cs|r1 IH1 r2 IH2|r1 IH1 r2 IH2|r IH|cs|r IH|];
    intros s k x Hx; simpl in *.
  - destruct (lit_rest l s) as [s'|] eqn:Hl; [|discriminate].
    apply lit_rest_length in Hl. exists s'. split; [done|lia].
  - destruct s as [|c s]; [discriminate|].
    destruct (mem cs c); [|discriminate]. exists s. simpl. split; [done|lia].
  - apply IH1 in Hx as (s1 & Hx & ?). apply IH2 in Hx as (s2 & Hx & ?).
    exists s2. split; [done|lia].
  - destruct (exec r1 s k) as [y|] eqn:Hy.
    + inversion Hx; subst. apply IH1 in Hy as (s' & ? & ?).
      exists s'. split; [done|lia].
    + apply IH2 in Hx as (s' & ? & ?). exists s'. split; [done|lia].
  - destruct (exec r s k) as [y|] eqn:Hy.
    + inversion Hx; subst. apply IH in Hy as (s' & ? & ?).
      exists s'. split; [done|lia].
    + exists s. split; [done|lia].
  - apply plus_loop_width in Hx as (s' & ? & ?). exists s'. split; [done|lia].
  - destruct (exec r s Some); [|discriminate]. exists s. split; [done|lia].
  - destruct s as [|c [|d s]].
    + exists []. split; [done|simpl; lia].
    + destruct (c =? 10)%N; [|discriminate]. exists [c]. split; [done|lia].
    + discriminate.
Qed.

Lemma search_from_bounds r s start a e :
  search_from r s start = Some (a, e) →
  start ≤ a ∧ a + min_width r ≤ e ∧ e ≤ start + length s.
Proof.
  revert start. induction s as [|c s IH]; intros start Hs; simpl in Hs.
  - unfold match_here in Hs.
    destruct (exec r [] Some) as [rest|] eqn:Hm; [|discriminate].
    inversion Hs; subst. apply exec_width in Hm as (s' & Hs' & ?).
    inversion Hs'; subst. simpl in *. lia.
  - unfold match_here in Hs.
    destruct (exec r (c :: s) Some) as [rest|] eqn:Hm.
    + inversion Hs; subst. apply exec_width in Hm as (s' & Hs' & ?).
      inversion Hs'; subst. simpl in *. lia.
    + apply IH in Hs. simpl. lia.
Qed.

Lemma search_bounds r s a e :
  search r s = Some (a, e) → a + min_width r ≤ e ∧ e ≤ length s.
Proof. intros Hs. apply search_from_bounds in Hs. lia. Qed.

Lemma sentence_end_width : min_width sentence_end_pattern = 1.
Proof. reflexivity. Qed.
End RegexFacts.

Lemma lstrip_nil_iff s : lstrip s = [] ↔ blank s = true.
Proof.
  induction s as [|c s IH]; simpl; [done|].
  destruct (py_isspace c); simpl; [done|]. split; discriminate.
Qed.

Lemma lstrip_blank s : blank (lstrip s) = blank s.
Proof.
  induction s as [|c s IH]; simpl; [done|].
  destruct (py_isspace c) eqn:Hc; simpl; [done|]. by rewrite Hc.
Qed.

Lemma blank_reverse s : blank (reverse s) = blank s.
Proof.
  unfold blank. apply eq_true_iff_eq. rewrite !forallb_forall.
  split; intros Hs x Hx; apply Hs; by rewrite <- ?list_elem_of_In, ?elem_of_reverse in *.
Qed.

Lemma strip_nil_iff s : strip s = [] ↔ blank s = true.
Proof.
  unfold strip, rstrip. rewrite <- (lstrip_blank s), <- (blank_reverse (lstrip s)).
  rewrite <- lstrip_nil_iff. split.
  - intros Hs. apply (f_equal reverse) in Hs. by rewrite reverse_involutive in Hs.
  - intros ->. done.
Qed.

Lemma truthy_strip s : truthy (strip s) = negb (blank s).
Proof.
  destruct (blank s) eqn:Hb.
  - apply strip_nil_iff in Hb. by rewrite Hb.
  - destruct (strip s) eqn:Hs; [|done].
    apply strip_nil_iff in Hs. congruence.
Qed.

Lemma blank_app s t : blank (s ++ t) = blank s && blank t.
Proof. apply forallb_app. Qed.

Section Boundary.
Context `{UnicodeDB}.

Lemma search_from_match r s start a e :
  search_from r s start = Some (a, e) →
  ∃ rest, match_here r (drop (a - start) s) = Some rest.
Proof.
  revert start. induction s as [|c s IH]; intros start Hs; simpl in Hs.
  - destruct (match_here r []) as [rest|] eqn:Hm; [|discriminate].
    inversion Hs; subst. exists rest. by rewrite Nat.sub_diag.
  - destruct (match_here r (c :: s)) as [rest|] eqn:Hm.
    + inversion Hs; subst. exists rest. by rewrite Nat.sub_diag.
    + pose proof Hs as Hb. apply search_from_bounds in Hb.
      apply IH in Hs as [rest Hr]. exists rest.
      replace (a - start) with (S (a - S start)) by lia. done.
Qed.

Lemma boundary_starts_visible s rest :
  match_here sentence_end_pattern s = Some rest →
  ∃ c s', s = c :: s' ∧ py_isspace c = false.
Proof.
  destruct s as [|c s']; [vm_compute; discriminate|].
  intros Hm. exists c, s'. split; [done|].
  destruct (py_isspace c) eqn:Hc; [|done]. exfalso.
  revert Hm. unfold match_here.
  let p := eval vm_compute in sentence_end_pattern in
  change sentence_end_pattern with p.
  cbn [exec lit_rest].
  repeat match goal with
         | |- context [(?n =? c)%N] =>
             destruct (N.eqb_spec n c) as [<-|_]; [vm_compute in Hc; discriminate|]
         end.
  discriminate.
Qed.
End Boundary.

Lemma extend_nil self : extend self [] = self.
Proof. destruct self. unfold extend. simpl. by rewrite !app_nil_r. Qed.

Lemma extend_extend self a b : extend (extend self a) b = extend self (a ++ b).
Proof. unfold extend. simpl. by rewrite !fmap_app, !app_assoc. Qed.

Lemma append_sentence_extend self s pos :
  append_sentence self s pos = extend self [(s, pos)].
Proof. done. Qed.

Section Loop.
Context `{UnicodeDB}.
Variable excluded : str → bool.
Variable position : nat → nat → str → Position.
Variable text : str.

Lemma boundary_candidate_visible pos a e :
  search sentence_end_pattern (drop pos text) = Some (a, e) →
  0 < e ∧ pos + e ≤ length text ∧
  truthy (strip (slice pos (pos + e) text)) = true.
Proof.
  intros Hs. pose proof (search_bounds _ _ _ _ Hs) as [Hw He].
  rewrite sentence_end_width in Hw. rewrite length_drop in He.
  apply search_from_match in Hs as [rest Hm].
  apply boundary_starts_visible in Hm as (c & s' & Hd & Hc).
  rewrite Nat.sub_0_r in Hd.
  split; [lia|]. split; [lia|].
  rewrite truthy_strip. apply negb_true_iff.
  unfold slice. replace (pos + e - pos) with e by lia.
  pose proof (take_drop a (drop pos text)) as Hsplit. rewrite Hd in Hsplit.
  assert (Ha : length (take a (drop pos text)) = a).
  { apply (f_equal length) in Hsplit. rewrite length_app in Hsplit.
    simpl in Hsplit. rewrite length_take in *. lia. }
  remember (take a (drop pos text)) as pre. rewrite <- Hsplit.
  rewrite take_app_ge by lia. rewrite Ha.
  destruct (e - a) as [|n] eqn:Hn; [lia|]. simpl.
  rewrite blank_app. simpl. rewrite Hc. apply andb_false_r.
Qed.

Lemma while_loop_spec fuel pos :
  pos ≤ length text → length text - pos ≤ fuel →
  let new := candidates fuel excluded text pos in
  (∀ self log,
     while_loop fuel excluded position text pos self log
     = Some (extend self (records_of position new), log ++ new))
  ∧ tiles pos (length text) (span <$> new)
  ∧ well_formed text new.
Proof.
  revert pos. induction fuel as [|fuel IH]; intros pos Hpos Hfuel new.
  - subst new. simpl. rewrite bool_decide_eq_false_2 by lia.
    split; [|split].
    + intros self log. by rewrite app_nil_r, extend_nil.
    + simpl; lia.
    + intros i c Hi. done.
  - destruct (decide (pos < length text)) as [Hlt|Hge].
    2:{ subst new. simpl. rewrite bool_decide_eq_false_2 by lia.
        split; [|split].
        - intros self log. by rewrite app_nil_r, extend_nil.
        - simpl; lia.
        - intros i c Hi. done. }
    subst new. simpl. rewrite bool_decide_eq_true_2 by done.
    destruct (search sentence_end_pattern (drop pos text)) as [[a e]|] eqn:Hs.
    + pose proof Hs as Hs'.
      apply boundary_candidate_visible in Hs' as (He0 & Hle & Hvis).
      set (sentence := strip (slice pos (pos + e) text)) in *.
      set (c := {| cand_start := pos; cand_end := pos + e;
                   cand_sentence := sentence;
                   cand_excluded := excluded sentence |}).
      destruct (IH (pos + e)) as (Heq & Htiles & Hwf); [lia|lia|].
      set (new := candidates fuel excluded text (pos + e)) in *.
      split; [|split].
      * intros self log. rewrite Heq.
        f_equal. f_equal; [|by rewrite <- app_assoc].
        unfold records_of. simpl. unfold accepted at 2. simpl. rewrite Hvis.
        destruct (excluded sentence); simpl; [done|].
        by rewrite append_sentence_extend, extend_extend.
      * simpl. split; [done|]. split; [lia|done].
      * intros [|i] c' Hi; simpl in Hi.
        -- inversion Hi; subst c'. split; [done|].
           unfold accepted. simpl. rewrite Hvis.
           destruct (excluded sentence); simpl; done.
        -- destruct (Hwf i c' Hi) as [? Hb]. split; [done|].
           intros ? ?. destruct Hb as [? ?]; [done|done|]. simpl. split; [lia|done].
    + set (sentence := strip (drop pos text)).
      set (c := {| cand_start := pos; cand_end := length text;
                   cand_sentence := sentence; cand_excluded := false |}).
      split; [|split].
      * intros self log. f_equal. f_equal.
        unfold records_of. simpl. unfold accepted; simpl.
        destruct (truthy sentence); simpl; [done|]. by rewrite extend_nil.
      * simpl. split; [done|]. split; [lia|done].
      * intros [|i] c' Hi; simpl in Hi; [|done].
        inversion Hi; subst c'. simpl. split.
        -- unfold slice. by rewrite take_ge by (rewrite length_drop; lia).
        -- unfold accepted; simpl. intros Ht _. split; [done|].
           fold sentence in Ht. destruct sentence; done.
Qed.

Lemma segment_spec paragraph :
  paragraph_text paragraph = text →
  let new := examined excluded paragraph in
  (∀ self, segment excluded position paragraph self
           = Some (extend self (records_of position new), new))
  ∧ (truthy (strip text) = true →
     tiles 0 (length text) (span <$> new) ∧ well_formed text new)
  ∧ (truthy (strip text) = false → new = []).
Proof.
  intros Htext new. subst new. unfold examined, segment. rewrite Htext.
  destruct (truthy (strip text)) eqn:Hv; simpl.
  - destruct (while_loop_spec (length text) 0) as (Heq & Htiles & Hwf); [lia|lia|].
    split; [|split]; [|done|done].
    intros self. by rewrite Heq.
  - split; [|split]; [|done|done].
    intros self. by rewrite extend_nil.
Qed.
End Loop.

Section CatalogOrder.
Context `{UnicodeDB}.

Lemma for_enumerate_extend {A} (body : nat → A → DocProcessor → option DocProcessor)
    (f : nat → A → list (str * Position)) :
  (∀ i x self, body i x self = Some (extend self (f i x))) →
  ∀ xs i self,
    for_enumerate body i xs self
    = Some (extend self (concat (imap (λ j, f (i + j)) xs))).
Proof.
  intros Hbody xs. induction xs as [|x xs IH]; intros i self; simpl.
  - by rewrite extend_nil.
  - rewrite Hbody. simpl. rewrite IH, extend_extend.
    f_equal. f_equal. rewrite Nat.add_0_r. f_equal. f_equal.
    apply imap_ext. intros j y _. simpl. f_equal. lia.
Qed.

Lemma for_enumerate_from_zero {A} (body : nat → A → DocProcessor → option DocProcessor)
    (f : nat → A → list (str * Position)) xs self :
  (∀ i x self, body i x self = Some (extend self (f i x))) →
  for_enumerate body 0 xs self = Some (extend self (concat (imap f xs))).
Proof. intros Hbody. by rewrite (for_enumerate_extend body f Hbody). Qed.

Lemma paragraph_body_extend i paragraph self :
  paragraph_body i paragraph self
  = Some (extend self (paragraph_records i paragraph)).
Proof.
  unfold paragraph_body, paragraph_records.
  destruct (segment_spec is_excluded_paragraph (InParagraph i) _ paragraph eq_refl)
    as (Heq & _). by rewrite Heq.
Qed.

Lemma cell_paragraph_body_extend t r c p paragraph self :
  cell_paragraph_body t r c p paragraph self
  = Some (extend self (cell_paragraph_records t r c p paragraph)).
Proof.
  unfold cell_paragraph_body, cell_paragraph_records.
  destruct (segment_spec is_excluded_table (InTable t r c p) _ paragraph eq_refl)
    as (Heq & _). by rewrite Heq.
Qed.

Lemma table_body_extend t table self :
  table_body t table self = Some (extend self (table_records t table)).
Proof.
  unfold table_body, table_records.
  apply for_enumerate_from_zero. intros r row self1.
  apply for_enumerate_from_zero. intros c cell self2.
  apply for_enumerate_from_zero. intros p paragraph self3.
  apply cell_paragraph_body_extend.
Qed.

Lemma split_into_sentences_catalog self doc :
  document self = Some doc →
  split_into_sentences self
  = Some ({| file_path := file_path self; document := Some doc;
             sentences := (catalog doc).*1;
             sentence_positions := (catalog doc).*2 |},
          (catalog doc).*1).
Proof.
  intros Hdoc. unfold split_into_sentences. rewrite Hdoc.
  rewrite (for_enumerate_from_zero _ paragraph_records) by apply paragraph_body_extend.
  simpl.
  rewrite (for_enumerate_from_zero _ table_records) by apply table_body_extend.
  simpl. unfold catalog. by rewrite !fmap_app.
Qed.
End CatalogOrder.

(* ===================================================================== *)
(** ** Segmentation and catalog: the claims *)
(* ===================================================================== *)

Section SegmentationClaims.
Context `{UnicodeDB}.

Lemma records_locator (position : nat → nat → str → Position) loc log :
  (∀ s e t, locator (position s e t) = loc) →
  Forall (λ r, locator r.2 = loc) (records_of position log).
Proof.
  intros Hloc. unfold records_of. apply Forall_fmap, Forall_forall.
  intros c _. apply Hloc.
Qed.

(** C1: the claim is that ["你好。今天天气不错！"] is split after 。 into two
    spans.  The code does not do that: the first alternative of the
    terminator pattern is the three-character run 。？！, so this text has
    no boundary at all and the whole paragraph comes back as one
    sentence; a boundary is found only where the three characters stand
    together. *)
Theorem chinese_terminators_do_not_split (path : option str) :
  let text := U "你好。今天天气不错！" in
  let doc := {| paragraphs := [[Sample.text_run text]]; tables := [] |} in
  split_into_sentences
    {| file_path := path; document := Some doc;
       sentences := []; sentence_positions := [] |}
  = Some ({| file_path := path; document := Some doc;
             sentences := [text];
             sentence_positions := [InParagraph 0 0 10 text] |},
          [text])
  ∧ [text] ≠ [U "你好。"; U "今天天气不错！"]
  ∧ search sentence_end_pattern text = None
  ∧ search sentence_end_pattern (U "你好。？！") = Some (2, 5).
Proof.
  intros text doc. repeat split; try (vm_compute; reflexivity).
  vm_compute. discriminate.
Qed.


(** C3 (amended): for a paragraph whose text [T] is not blank, the
    candidates the loop examines, in order, tile [[0, len(T))]: each one
    starts where the one before it ended, none is empty and the last one
    ends at [len(T)].  The accepted ones are exactly the records
    appended; a candidate that is neither returned nor dropped by the
    exclusion check is the last one, and its range holds whitespace
    only. *)
Theorem candidates_tile_paragraph
    (excluded : str → bool) (position : nat → nat → str → Position)
    (paragraph : Paragraph) :
  truthy (strip (paragraph_text paragraph)) = true →
  let text := paragraph_text paragraph in
  let log := examined excluded paragraph in
  (∀ self, segment excluded position paragraph self
           = Some (extend self (records_of position log), log))
  ∧ tiles 0 (length text) (span <$> log)
  ∧ (∀ i c, log !! i = Some c →
       accepted c = false → cand_excluded c = false →
       S i = length log
       ∧ blank (slice (cand_start c) (cand_end c) text) = true).
Proof.
  intros Hvisible text log.
  destruct (segment_spec excluded position text paragraph eq_refl)
    as (Hrun & Hshape & _).
  destruct (Hshape Hvisible) as [Htiles Hwf].
  split; [exact Hrun|]. split; [exact Htiles|].
  intros i c Hi Hacc Hexc. destruct (Hwf i c Hi) as [Htext Hlast].
  destruct (Hlast Hacc Hexc) as [Hend Hempty]. split; [exact Hend|].
  apply strip_nil_iff. by rewrite <- Htext.
Qed.

(** C4: the catalog [split_into_sentences] builds lists the records of
    every top-level paragraph in document order, then those of the
    tables in document order, each table by rows, cells and paragraphs
    ([catalog]); every record points back at the paragraph it comes
    from.  For a document with top-level paragraphs P0, P1 and a table
    of one cell holding P2 the order is: P0's sentences, P1's, then
    those of T0/row0/cell0/P2. *)
Theorem catalog_order (self : DocProcessor) (doc : Document) :
  document self = Some doc →
  ∃ self',
    split_into_sentences self = Some (self', (catalog doc).*1)
    ∧ sentences self' = (catalog doc).*1
    ∧ sentence_positions self' = (catalog doc).*2
    ∧ (∀ i P, Forall (λ r, locator r.2 = TopLevel i) (paragraph_records i P))
    ∧ (∀ t r c p P, Forall (λ rec, locator rec.2 = InCell t r c p)
                      (cell_paragraph_records t r c p P))
    ∧ (∀ P0 P1 P2,
         paragraphs doc = [P0; P1] → tables doc = [[[[P2]]]] →
         catalog doc = paragraph_records 0 P0 ++ paragraph_records 1 P1
                         ++ cell_paragraph_records 0 0 0 0 P2).
Proof.
  intros Hdoc. eexists. split; [by apply split_into_sentences_catalog|].
  split; [done|]. split; [done|].
  split; [intros; by apply records_locator|].
  split; [intros; by apply records_locator|].
  intros P0 P1 P2 Hp Ht. unfold catalog, table_records. rewrite Hp, Ht.
  simpl. by rewrite ?app_nil_r, <- app_assoc.
Qed.

(** C6: the claim is that a candidate shorter than five characters that
    ends in a Western period is dropped wherever it occurs.  The loop
    over table cells does not have that check: the paragraph ["(1). "]
    yields the record ["(1)."] in a table cell, while the same paragraph
    at top level yields nothing. *)
Theorem table_cells_keep_short_period_candidates
    (t r c p : nat) (self : DocProcessor) :
  let paragraph := Sample.paragraph "(1). " in
  short_with_period (U "(1).") = true
  ∧ cell_paragraph_body t r c p paragraph self
    = Some (append_sentence self (U "(1).") (InTable t r c p 0 5 (U "(1).")))
  ∧ paragraph_body p paragraph self = Some self.
Proof.
  intros paragraph. split; [vm_compute; reflexivity|].
  unfold cell_paragraph_body, paragraph_body, segment.
  split; vm_compute; reflexivity.
Qed.
End SegmentationClaims.

Lemma annotated_text paragraph comment_text :
  paragraph_text (annotated paragraph comment_text)
  = paragraph_text paragraph ++ U " " ++ U "[校对建议: " ++ comment_text ++ U "]".
Proof.
  unfold annotated, add_comment_to_paragraph, paragraph_text, add_run. simpl.
  by rewrite app_nil_r.
Qed.

Lemma add_comment_to_paragraph_offsets paragraph s e comment_text :
  add_comment_to_paragraph paragraph s e comment_text
  = annotated paragraph comment_text.
Proof. done. Qed.

Lemma resolve_replace doc loc old new :
  resolve doc loc = Some old → resolve (replace_at doc loc new) loc = Some new.
Proof.
  destruct loc as [i|t r c p]; simpl.
  - intros Hi. apply list_lookup_insert_eq. by eapply lookup_lt_Some.
  - unfold cell_paragraph. simpl. intros Hp.
    destruct (tables doc !! t) as [table|] eqn:Ht; [|done]. simpl in Hp.
    destruct (table !! r) as [row|] eqn:Hr; [|done]. simpl in Hp.
    destruct (row !! c) as [cell|] eqn:Hc; [|done]. simpl in Hp.
    rewrite list_lookup_alter_eq, Ht. simpl.
    rewrite list_lookup_alter_eq, Hr. simpl.
    rewrite list_lookup_alter_eq, Hc. simpl.
    apply list_lookup_insert_eq. by eapply lookup_lt_Some.
Qed.

Lemma py_index_nonneg {A} (l : list A) (i : nat) : py_index l (Z.of_nat i) = l !! i.
Proof.
  unfold py_index. rewrite (proj2 (Z.leb_le _ _)) by lia. by rewrite Nat2Z.id.
Qed.

Lemma py_index_negative {A} (l : list A) (i : Z) :
  (- Z.of_nat (length l) ≤ i < 0)%Z →
  py_index l i = l !! Z.to_nat (Z.of_nat (length l) + i).
Proof.
  intros Hi. unfold py_index.
  rewrite (proj2 (Z.leb_gt _ _)) by lia.
  by rewrite (proj2 (Z.leb_le _ _)) by lia.
Qed.

Lemma py_index_too_negative {A} (l : list A) (i : Z) :
  (i < - Z.of_nat (length l))%Z → py_index l i = None.
Proof.
  intros Hi. unfold py_index.
  rewrite (proj2 (Z.leb_gt _ _)) by lia.
  by rewrite (proj2 (Z.leb_gt _ _)) by lia.
Qed.

Lemma add_comment_resolved self doc i comment_text pos s par :
  document self = Some doc →
  (i < Z.of_nat (length (sentence_positions self)))%Z →
  py_index (sentence_positions self) i = Some pos →
  py_index (sentences self) i = Some s →
  resolve doc (locator pos) = Some par →
  add_comment self i comment_text
  = (with_document self
       (replace_at doc (locator pos) (annotated par comment_text)), true).
Proof.
  intros Hdoc Hlt Hpos Hs Hpar. unfold add_comment. rewrite Hdoc.
  rewrite (proj2 (Z.leb_gt _ _)) by lia. rewrite Hpos.
  destruct pos as [pi st en tx|t r c p st en tx]; simpl in Hpar |- *;
    rewrite Hpar; simpl; by rewrite Hs.
Qed.





Module PathFacts.
Import Path.

Lemma rfind_from_found c s i last :
  rfind_from c s i last = last
  ∨ ∃ j, rfind_from c s i last = Z.of_nat (i + j) ∧ s !! j = Some c.
Proof.
  revert i last. induction s as [|x s IH]; intros i last; simpl; [by left|].
  destruct (IH (S i) (if (x =? c)%N then Z.of_nat i else last)) as [Heq|(j & Heq & Hj)].
  - rewrite Heq. destruct (N.eqb_spec x c) as [->|]; [|by left].
    right. exists 0. split; [f_equal; lia|done].
  - right. exists (S j). split; [rewrite Heq; f_equal; lia|done].
Qed.

Lemma rfind_lookup c s :
  (0 ≤ rfind c s)%Z → s !! Z.to_nat (rfind c s) = Some c.
Proof.
  unfold rfind. intros Hr.
  destruct (rfind_from_found c s 0 (-1)) as [Heq|(j & Heq & Hj)]; [lia|].
  rewrite Heq. simpl. by rewrite Nat2Z.id.
Qed.

Lemma splitext_join p name ext :
  splitext p = (name, ext) → name ++ ext = p.
Proof.
  unfold splitext. intros Hs.
  destruct (rfind sep p <? rfind extsep p)%Z;
    [destruct (forallb _ _)|]; inversion Hs; subst;
    auto using app_nil_r, take_drop.
Qed.

Lemma splitext_extension p name ext :
  splitext p = (name, ext) → ext = [] ∨ ∃ e, ext = extsep :: e.
Proof.
  unfold splitext. intros Hs.
  destruct (rfind sep p <? rfind extsep p)%Z eqn:Hlt;
    [destruct (forallb _ _)|]; inversion Hs; subst; try by left.
  right. apply Z.ltb_lt in Hlt.
  assert (Hsep : (-1 ≤ rfind sep p)%Z).
  { unfold rfind. destruct (rfind_from_found sep p 0 (-1)) as [->|(j & -> & _)]; lia. }
  exists (drop (S (Z.to_nat (rfind extsep p))) p).
  apply drop_S, rfind_lookup. lia.
Qed.
End PathFacts.

Lemma digit_is_digit n : is_ascii_digit (digit n) = true.
Proof.
  unfold is_ascii_digit, in_range, digit.
  pose proof (Nat.mod_upper_bound n 10).
  apply andb_true_iff. split; apply N.leb_le; lia.
Qed.

Lemma timestamp_shape now :
  length (strftime_YmdHMS now) = 14
  ∧ forallb is_ascii_digit (strftime_YmdHMS now) = true.
Proof.
  split; [done|]. unfold strftime_YmdHMS, pad4, pad2. simpl.
  by rewrite !digit_is_digit.
Qed.

(** C7 (amended): with no explicit output path, the path is the original
    file name with the suffix [_AI校对] inserted before the extension, in
    the directory of the original; if a file exists at that path, the
    suffix is [_AI校对] followed by [_] and fourteen digits
    ([%Y%m%d%H%M%S]), again before the extension.  That path is what
    [save_document] returns when the write succeeds. *)
Theorem default_output_path_suffix fs self doc fp name ext :
  document self = Some doc →
  file_path self = Some fp →
  Path.splitext (Path.basename fp) = (name, ext) →
  let timestamp := strftime_YmdHMS (now fs) in
  let plain := Path.join (Path.dirname fp) (name ++ U "_AI校对" ++ ext) in
  let stamped :=
    Path.join (Path.dirname fp)
      (name ++ U "_AI校对" ++ U "_" ++ timestamp ++ ext) in
  name ++ ext = Path.basename fp
  ∧ (ext = [] ∨ ∃ e, ext = Path.extsep :: e)
  ∧ length timestamp = 14
  ∧ forallb is_ascii_digit timestamp = true
  ∧ default_output_path fs fp
    = (if path_exists fs plain then stamped else plain)
  ∧ (write fs doc (default_output_path fs fp) = None →
     save_document fs self None = Saved (default_output_path fs fp)).
Proof.
  intros Hdoc Hfp Hsplit timestamp plain stamped.
  split; [by apply PathFacts.splitext_join|].
  split; [by eapply PathFacts.splitext_extension|].
  split; [apply timestamp_shape|]. split; [apply timestamp_shape|].
  split.
  - unfold default_output_path. rewrite Hsplit. done.
  - intros Hw. unfold save_document. rewrite Hdoc, Hfp, Hw. done.
Qed.

Section ApiFacts.
Variable json_loads : str → option json.

Lemma all_in_dict keys d :
  all_in keys (JDict d) = inr (forallb (λ key, has_field key (JDict d)) keys).
Proof.
  induction keys as [|key keys IH]; simpl; [done|].
  destruct (bool_decide (is_Some (dict_get key d))); simpl; [apply IH|done].
Qed.


Lemma check_fields_success content result r :
  check_fields content result = Success r →
  r = result ∧ all_in required_fields result = inr true.
Proof.
  unfold check_fields.
  destruct (all_in required_fields result) as [e|[|]]; intros Hc;
    inversion Hc; done.
Qed.

Lemma extract_success response_data r :
  extract json_loads response_data = Success r →
  all_in required_fields r = inr true.
Proof.
  unfold extract. intros He.
  repeat match type of He with
         | match ?x with _ => _ end = _ => destruct x eqn:?; try discriminate
         end.
  apply check_fields_success in He as [-> ?]. done.
Qed.

Lemma proofread_success http sentence r :
  proofread_sentence json_loads http sentence = Success r →
  all_in required_fields r = inr true.
Proof.
  unfold proofread_sentence. intros He.
  repeat match type of He with
         | (if ?x then _ else _) = _ => destruct x eqn:?; try discriminate
         | match ?x with _ => _ end = _ => destruct x eqn:?; try discriminate
         end.
  by eapply extract_success.
Qed.

Lemma proofread_chat sentence content :
  truthy (strip sentence) = true →
  proofread_sentence json_loads (Response 200 (inr (chat_response content))) sentence
  = match json_loads (json_text content) with
    | None => Failure (InvalidJson content)
    | Some result => check_fields content result
    end.
Proof. intros Hs. unfold proofread_sentence. rewrite Hs. done. Qed.
End ApiFacts.

(** C8: the claim is that a parsed content lacking a required field is
    never reported as success.  A content that parses to the list
    [["content_0", "wrong", "annotation", "content_1"]] has no field at
    all, yet [key in result] holds for every key and
    [proofread_sentence] returns [(True, result)]. *)
Theorem field_check_accepts_list_of_names json_loads sentence content :
  truthy (strip sentence) = true →
  json_loads (json_text content) = Some (JList (JStr <$> required_fields)) →
  proofread_sentence json_loads (Response 200 (inr (chat_response content))) sentence
  = Success (JList (JStr <$> required_fields))
  ∧ forallb (λ key, has_field key (JList (JStr <$> required_fields))) required_fields
    = false.
Proof.
  intros Hs Hj. rewrite proofread_chat by done. rewrite Hj. done.
Qed.

Section WorkerFacts.
Context `{UnicodeDB}.
Variable json_loads : str → option json.
Variable py_str : json → str.

Abbreviation visit := (visit json_loads py_str).
Abbreviation sentence_loop := (sentence_loop json_loads py_str).
Abbreviation run := (run json_loads py_str).

Lemma all_in_fields d :
  all_in required_fields (JDict d) = inr true →
  is_Some (dict_get (U "wrong") d) ∧ is_Some (dict_get (U "annotation") d).
Proof.
  rewrite all_in_dict. intros Ha.
  assert (Hf : forallb (λ key, has_field key (JDict d)) required_fields = true)
    by congruence.
  clear Ha. rewrite forallb_forall in Hf.
  split; eapply bool_decide_eq_true_1, (Hf (U _)).
  - right; left; reflexivity.
  - right; right; left; reflexivity.
Qed.

Lemma add_comment_keeps self i c :
  file_path (add_comment self i c).1 = file_path self
  ∧ (is_Some (document self) → is_Some (document (add_comment self i c).1)).
Proof.
  unfold add_comment.
  repeat match goal with
         | |- context [match ?x with _ => _ end] => destruct x eqn:?; simpl
         end; (split; [done|]); intros [? ?]; try done; eauto.
Qed.

Lemma visit_failure w total i sentence dp lm error :
  proofread_sentence json_loads (http w i sentence) sentence = Failure error →
  visit w total i sentence dp lm
  = ([progressUpdated (S i) total; Classify sentence;
      logUpdated (ProcessError sentence error)],
     dp, (log_error lm sentence error).1, None).
Proof. intros Hp. unfold visit. by rewrite Hp. Qed.

Lemma visit_benign w total i sentence dp lm :
  failure_or_object (proofread_sentence json_loads (http w i sentence) sentence) →
  ∃ events dp' lm' entry,
    visit w total i sentence dp lm = (events, dp', lm', None)
    ∧ classified events = [sentence]
    ∧ file_path dp' = file_path dp
    ∧ (is_Some (document dp) → is_Some (document dp'))
    ∧ logs lm' = logs lm ++ [entry]
    ∧ records (proofread_sentence json_loads (http w i sentence) sentence)
        sentence entry.
Proof.
  intros Hb. unfold visit.
  destruct (proofread_sentence json_loads (http w i sentence) sentence)
    as [result|error] eqn:Hp.
  - destruct result as [| | | | | |d]; try done.
    apply proofread_success, all_in_fields in Hp as [[wrong Hw] [ann Ha]].
    simpl. rewrite Hw. destruct (json_truthy wrong).
    + rewrite Ha. simpl.
      destruct (add_comment_keeps dp (Z.of_nat i) (format_value py_str ann)) as [? ?].
      eexists _, _, _, _. split; [done|]. split_and!; try done.
      by eexists _, _, _.
    + simpl. eexists _, _, _, _. split; [done|]. split_and!; try done.
      by eexists _, _, _.
  - simpl. eexists _, _, _, _. split; [done|]. done.
Qed.

Lemma classified_app a b : classified (a ++ b) = classified a ++ classified b.
Proof. apply omap_app. Qed.

Lemma sentence_loop_completes w total todo :
  (∀ j, is_running w j = true) →
  (∀ j s, failure_or_object (proofread_sentence json_loads (http w j s) s)) →
  ∀ i dp lm,
  ∃ events dp' lm' entries,
    sentence_loop w total i todo dp lm = (events, dp', lm', Exhausted)
    ∧ classified events = todo
    ∧ file_path dp' = file_path dp
    ∧ (is_Some (document dp) → is_Some (document dp'))
    ∧ logs lm' = logs lm ++ entries
    ∧ length entries = length todo
    ∧ ∀ k s, todo !! k = Some s →
        ∃ entry, entries !! k = Some entry
                 ∧ records (proofread_sentence json_loads (http w (i + k) s) s)
                     s entry.
Proof.
  intros Hrun Hok. induction todo as [|s todo IH]; intros i dp lm; simpl.
  - exists [], dp, lm, []. rewrite app_nil_r. split_and!; try done.
  - rewrite Hrun. simpl.
    destruct (visit_benign w total i s dp lm (Hok i s))
      as (ev & dp1 & lm1 & entry & -> & Hc & Hf & Hd & Hlog & Hrec).
    destruct (IH (S i) dp1 lm1)
      as (ev' & dp2 & lm2 & entries & -> & Hc' & Hf' & Hd' & Hlog' & Hlen & Hall).
    exists (ev ++ ev'), dp2, lm2, (entry :: entries). split; [done|].
    rewrite classified_app, Hc, Hc'. split; [done|].
    split; [congruence|]. split; [auto|].
    split; [by rewrite Hlog', Hlog, <- app_assoc|].
    split; [simpl; by rewrite Hlen|].
    intros [|k] s' Hk; simpl in Hk.
    + inversion Hk; subst. exists entry. by rewrite Nat.add_0_r.
    + destruct (Hall k s' Hk) as (entry' & He & Hr). exists entry'.
      split; [done|]. by replace (i + S k) with (S i + k) by lia.
Qed.
End WorkerFacts.

Section RunFacts.
Context `{UnicodeDB}.
Variable json_loads : str → option json.
Variable py_str : json → str.

(** Whatever a visit does, the entries already in the log stay. *)
Lemma visit_keeps_log w total i sentence dp lm :
  logs lm `prefix_of` logs (visit json_loads py_str w total i sentence dp lm).1.2.
Proof.
  unfold visit, log_sentence, log_error, get_or_empty.
  repeat case_match; simplify_eq; simpl; try done; by apply prefix_app_r.
Qed.

Lemma sentence_loop_keeps_log w total todo :
  ∀ i dp lm,
    logs lm `prefix_of` logs (sentence_loop json_loads py_str w total i todo dp lm).1.2.
Proof.
  induction todo as [|s todo IH]; intros i dp lm; [done|].
  cbn [sentence_loop]. destruct (is_running w i); cbn [negb]; [|done].
  pose proof (visit_keeps_log w total i s dp lm) as Hvisit.
  destruct (visit json_loads py_str w total i s dp lm) as [[[events dp1] lm1] [e|]];
    [done|].
  specialize (IH (S i) dp1 lm1).
  destruct (sentence_loop json_loads py_str w total (S i) todo dp1 lm1)
    as [[[later dp2] lm2] exit].
  simpl in *. by etrans.
Qed.

(** C9: a load failure ends the run at once, with no sentence
    classified; a classifier failure on a sentence is recorded: the
    entry of [log_error] for this sentence and this failure is appended
    to the log, where it stays to the end of the loop, the counters
    are not touched, the signal is sent, and the loop goes on with the
    next sentence, the document untouched; when no sentence is
    cancelled and every classification fails or returns an object,
    every catalogued sentence is classified, the log holds one entry
    for each sentence, in order, that of a failed classification being
    the entry of [log_error] with the message of the failure, and the
    run ends with the outcome of the save: a failure to save gives
    [finished(False, ...)] with no summary. *)
Theorem classifier_failure_is_not_fatal w path lm :
  (open_document w path = None →
     run json_loads py_str w path lm = Some ([finished false LoadFailed], lm))
  ∧ (∀ total i sentence rest dp lm0 error,
       is_running w i = true →
       proofread_sentence json_loads (http w i sentence) sentence = Failure error →
       sentence_loop json_loads py_str w total i (sentence :: rest) dp lm0
       = (let '(later, dp', lm', exit) :=
            sentence_loop json_loads py_str w total (S i) rest dp
              (log_error lm0 sentence error).1 in
          ([progressUpdated (S i) total; Classify sentence;
            logUpdated (ProcessError sentence error)] ++ later,
           dp', lm', exit))
       ∧ logs (log_error lm0 sentence error).1
         = logs lm0 ++ [ProcessFailed sentence error]
       ∧ error_count (log_error lm0 sentence error).1 = error_count lm0
       ∧ total_count (log_error lm0 sentence error).1 = total_count lm0
       ∧ (logs lm0 ++ [ProcessFailed sentence error])
           `prefix_of`
           logs (sentence_loop json_loads py_str w total i
                   (sentence :: rest) dp lm0).1.2)
  ∧ (∀ doc,
       truthy path = true →
       open_document w path = Some doc →
       catalog doc ≠ [] →
       (∀ j, is_running w j = true) →
       (∀ j s, failure_or_object
                 (proofread_sentence json_loads (http w j s) s)) →
       ∃ events dp lm1,
         classified events = (catalog doc).*1
         ∧ file_path dp = Some path
         ∧ is_Some (document dp)
         ∧ length (logs lm1) = length (catalog doc)
         ∧ (∀ j s, (catalog doc).*1 !! j = Some s →
              ∃ entry,
                logs lm1 !! j = Some entry
                ∧ records (proofread_sentence json_loads (http w j s) s)
                    s entry)
         ∧ run json_loads py_str w path lm
           = Some match save_document (storage w) dp None with
                  | Saved p =>
                      (events ++ [logUpdated (finish_logging lm1 p).2;
                                  finished true (SaveOutcome (Saved p))],
                       (finish_logging lm1 p).1)
                  | failure =>
                      (events ++ [finished false (SaveOutcome failure)], lm1)
                  end).
Proof.
  split; [|split].
  - intros Hopen. unfold run, load_document. simpl.
    destruct (truthy path); simpl; [|done]. by rewrite Hopen.
  - intros total i sentence rest dp lm0 error Hrun Hfail.
    assert (Hstep :
      sentence_loop json_loads py_str w total i (sentence :: rest) dp lm0
      = (let '(later, dp', lm', exit) :=
           sentence_loop json_loads py_str w total (S i) rest dp
             (log_error lm0 sentence error).1 in
         ([progressUpdated (S i) total; Classify sentence;
           logUpdated (ProcessError sentence error)] ++ later,
          dp', lm', exit))).
    { simpl. rewrite Hrun. simpl.
      rewrite (visit_failure _ _ _ _ _ _ _ _ _ Hfail).
      by destruct (sentence_loop _ _ _ _ _ _ _ _)
        as [[[later dp'] lm'] exit]. }
    split; [exact Hstep|]. split; [done|]. split; [done|]. split; [done|].
    rewrite Hstep.
    pose proof (sentence_loop_keeps_log w total rest (S i)
                  dp (log_error lm0 sentence error).1) as Hkeep.
    revert Hkeep.
    destruct (sentence_loop json_loads py_str w total (S i) rest dp
                (log_error lm0 sentence error).1)
      as [[[later dp'] lm'] exit].
    intros Hkeep. exact Hkeep.
  - intros doc Hpath Hopen Hne Hrun Hok. unfold run, load_document. simpl.
    rewrite Hpath. simpl. rewrite Hopen.
    rewrite (split_into_sentences_catalog _ doc) by done. simpl.
    assert (Hlen : length (catalog doc).*1 = length (catalog doc))
      by apply length_fmap.
    destruct (catalog doc).*1 as [|s0 ss] eqn:Hcat.
    { destruct (catalog doc); done. }
    set (dp0 := {| file_path := Some path; document := Some doc;
                   sentences := s0 :: ss;
                   sentence_positions := (catalog doc).*2 |}).
    destruct (sentence_loop_completes json_loads py_str w (length (s0 :: ss))
                (s0 :: ss) Hrun Hok 0 dp0 (start_logging lm))
      as (events & dp & lm1 & entries & Hloop & Hc & Hfp & Hd
          & Hlog & Hentries & Hall).
    rewrite Hloop. exists events, dp, lm1. split; [done|].
    split; [done|]. split; [by apply Hd|].
    simpl in Hlog.
    split; [by rewrite Hlog, Hentries, <- Hlen|].
    split; [rewrite Hlog; exact Hall|].
    by destruct (save_document (storage w) dp None).
Qed.
End RunFacts.
Section CatalogInvariants.
Context `{UnicodeDB}.

Lemma tiles_le a b ranges : tiles a b ranges → a ≤ b.
Proof.
  revert a. induction ranges as [|[s e] rest IH]; intros a; simpl.
  - lia.
  - intros (-> & Hlt & Hrest). apply IH in Hrest. lia.
Qed.

Lemma tiles_bounds a b ranges :
  tiles a b ranges → Forall (λ r, a ≤ r.1 ∧ r.1 < r.2 ∧ r.2 ≤ b) ranges.
Proof.
  revert a. induction ranges as [|[s e] rest IH]; intros a; simpl; [constructor|].
  intros (-> & Hlt & Hrest). constructor.
  - simpl. apply tiles_le in Hrest. lia.
  - eapply List.Forall_impl; [|by apply IH]. intros [s' e'] ?. simpl in *. lia.
Qed.

Lemma Forall_concat_imap {A B} (P : B → Prop) (f : nat → A → list B) l :
  (∀ i x, l !! i = Some x → Forall P (f i x)) →
  Forall P (concat (imap f l)).
Proof.
  intros Hf. apply Forall_concat, Forall_forall. intros ys Hin.
  apply list_elem_of_In, elem_of_lookup_imap_1 in Hin as (i & x & -> & Hl). eauto.
Qed.

Lemma records_describe excluded (position : nat → nat → str → Position)
    paragraph doc loc :
  (∀ s e t, locator (position s e t) = loc
            ∧ pos_start (position s e t) = s
            ∧ pos_end (position s e t) = e
            ∧ pos_text (position s e t) = t) →
  resolve doc loc = Some paragraph →
  Forall (describes doc) (records_of position (examined excluded paragraph)).
Proof.
  intros Hpos Hres. unfold records_of. apply Forall_fmap, Forall_forall.
  intros c Hc. apply filter_In in Hc as [Hc Hacc].
  apply list_elem_of_In, list_elem_of_lookup in Hc as [i Hi].
  destruct (segment_spec excluded position (paragraph_text paragraph)
              paragraph eq_refl) as (_ & Hshape & Hblank).
  destruct (truthy (strip (paragraph_text paragraph))) eqn:Hv.
  2:{ rewrite Hblank in Hi by done. done. }
  destruct (Hshape eq_refl) as [Htiles Hwf].
  destruct (Hwf i c Hi) as [Htext _].
  apply tiles_bounds in Htiles. rewrite Forall_fmap, Forall_lookup in Htiles.
  specialize (Htiles i c Hi). simpl in Htiles.
  destruct (Hpos (cand_start c) (cand_end c) (cand_sentence c))
    as (Hl & Hs & He & Ht).
  exists paragraph. simpl. rewrite Hl, Hs, He, Ht.
  split; [done|]. split; [done|]. split; [lia|]. split; [done|].
  unfold accepted in Hacc. apply andb_true_iff in Hacc as [_ Hne].
  by destruct (cand_sentence c).
Qed.

Lemma catalog_describes doc : Forall (describes doc) (catalog doc).
Proof.
  unfold catalog. apply Forall_app. split.
  - apply Forall_concat_imap. intros i p Hp.
    apply (records_describe _ _ _ _ (TopLevel i)); done.
  - apply Forall_concat_imap. intros t table Ht.
    apply Forall_concat_imap. intros r row Hr.
    apply Forall_concat_imap. intros c cell Hc.
    apply Forall_concat_imap. intros p par Hp.
    apply (records_describe _ _ _ _ (InCell t r c p)); [done|].
    simpl. unfold cell_paragraph. rewrite Ht. simpl. rewrite Hr. simpl.
    rewrite Hc. done.
Qed.
End CatalogInvariants.
Section SplitProperties.
Context `{UnicodeDB}.

(** X1: [split_into_sentences] returns for every processor, loaded or
    not (the [while] loops always end), and changes neither the document
    nor the path. *)
Theorem split_into_sentences_returns (self : DocProcessor) :
  ∃ self' result,
    split_into_sentences self = Some (self', result)
    ∧ document self' = document self
    ∧ file_path self' = file_path self.
Proof.
  destruct (document self) as [doc|] eqn:Hdoc.
  - eexists _, _. split; [by apply split_into_sentences_catalog|]. done.
  - exists self, []. unfold split_into_sentences. rewrite Hdoc. done.
Qed.

(** X2: after [split_into_sentences] on a loaded document the two lists
    run in step: they have the same length, and the i-th position points
    at an existing paragraph, holds offsets inside its text, and stores
    the i-th sentence, which is the trimmed, non-empty text between the
    offsets. *)
Theorem split_catalog_in_step (self self' : DocProcessor) (doc : Document)
    (result : list str) :
  document self = Some doc →
  split_into_sentences self = Some (self', result) →
  result = sentences self'
  ∧ length (sentences self') = length (sentence_positions self')
  ∧ ∀ i pos, sentence_positions self' !! i = Some pos →
      ∃ s, sentences self' !! i = Some s ∧ describes doc (s, pos).
Proof.
  intros Hdoc Hsplit.
  rewrite (split_into_sentences_catalog self doc Hdoc) in Hsplit.
  inversion Hsplit; subst; clear Hsplit. simpl.
  split; [done|]. split; [by rewrite !length_fmap|].
  intros i pos Hi. rewrite list_lookup_fmap in Hi.
  destruct (catalog doc !! i) as [[s pos']|] eqn:Hr; [|done].
  simpl in Hi. inversion Hi; subst. exists s.
  split; [by rewrite list_lookup_fmap, Hr|].
  pose proof (catalog_describes doc) as Hall.
  rewrite Forall_lookup in Hall. by apply (Hall i).
Qed.

(** X3: every index of the catalog just built can be annotated:
    [add_comment] returns [True] for each index from [-len] to
    [len - 1]. *)
Theorem add_comment_after_split (self self' : DocProcessor) (doc : Document)
    (result : list str) (i : Z) (comment_text : str) :
  document self = Some doc →
  split_into_sentences self = Some (self', result) →
  (- Z.of_nat (length result) ≤ i < Z.of_nat (length result))%Z →
  (add_comment self' i comment_text).2 = true.
Proof.
  intros Hdoc Hsplit Hi.
  rewrite (split_into_sentences_catalog self doc Hdoc) in Hsplit.
  inversion Hsplit; subst; clear Hsplit.
  rewrite length_fmap in Hi.
  set (self' := {| file_path := file_path self; document := Some doc;
                   sentences := (catalog doc).*1;
                   sentence_positions := (catalog doc).*2 |}).
  set (n := if decide (0 ≤ i)%Z then Z.to_nat i
            else Z.to_nat (Z.of_nat (length (catalog doc)) + i)).
  assert (Hn : n < length (catalog doc)) by (unfold n; case_decide; lia).
  destruct (lookup_lt_is_Some_2 _ _ Hn) as [[s pos] Hr].
  assert (Hidx : ∀ A (l : list A), length l = length (catalog doc) →
                   py_index l i = l !! n).
  { intros A l Hl. unfold n. case_decide.
    - rewrite <- (Z2Nat.id i) at 1 by lia. apply py_index_nonneg.
    - rewrite py_index_negative by lia. by rewrite Hl. }
  pose proof (catalog_describes doc) as Hall.
  rewrite Forall_lookup in Hall.
  destruct (Hall n _ Hr) as (par & Hres & _).
  rewrite (add_comment_resolved self' doc i comment_text pos s par); try done.
  - simpl. rewrite length_fmap. lia.
  - rewrite Hidx by (simpl; by rewrite length_fmap).
    simpl. by rewrite list_lookup_fmap, Hr.
  - rewrite Hidx by (simpl; by rewrite length_fmap).
    simpl. by rewrite list_lookup_fmap, Hr.
Qed.
End SplitProperties.
Section Annotation.

Lemma py_index_is_Some {A} (l : list A) (i : Z) :
  is_Some (py_index l i) ↔ (- Z.of_nat (length l) ≤ i < Z.of_nat (length l))%Z.
Proof.
  unfold py_index. destruct (Z.leb_spec 0 i).
  - rewrite lookup_lt_is_Some. lia.
  - destruct (Z.leb_spec (- Z.of_nat (length l)) i).
    + rewrite lookup_lt_is_Some. lia.
    + split; [by intros [? ?]|lia].
Qed.

Lemma cell_paragraph_replace_other doc t r c p new t' r' c' p' :
  (t, r, c, p) ≠ (t', r', c', p') →
  cell_paragraph (set_cell_paragraph doc t r c p new) t' r' c' p'
  = cell_paragraph doc t' r' c' p'.
Proof.
  intros Hne. unfold cell_paragraph. simpl.
  destruct (decide (t = t')) as [<-|]; [|by rewrite list_lookup_alter_ne].
  rewrite list_lookup_alter_eq.
  destruct (tables doc !! t) as [table|]; [|done]. simpl.
  destruct (decide (r = r')) as [<-|]; [|by rewrite list_lookup_alter_ne].
  rewrite list_lookup_alter_eq.
  destruct (table !! r) as [row|]; [|done]. simpl.
  destruct (decide (c = c')) as [<-|]; [|by rewrite list_lookup_alter_ne].
  rewrite list_lookup_alter_eq.
  destruct (row !! c) as [cell|]; [|done]. simpl.
  apply list_lookup_insert_ne. congruence.
Qed.

Lemma resolve_replace_other doc loc loc' new :
  loc ≠ loc' → resolve (replace_at doc loc new) loc' = resolve doc loc'.
Proof.
  destruct loc as [i|t r c p], loc' as [i'|t' r' c' p']; simpl; intros Hne;
    try done.
  - apply list_lookup_insert_ne. congruence.
  - apply cell_paragraph_replace_other. congruence.
Qed.

(** The two ways [add_comment] can end. *)
Lemma add_comment_cases self i comment_text :
  add_comment self i comment_text = (self, false)
  ∨ ∃ doc pos par,
      document self = Some doc
      ∧ py_index (sentence_positions self) i = Some pos
      ∧ resolve doc (locator pos) = Some par
      ∧ add_comment self i comment_text
        = (with_document self
             (replace_at doc (locator pos) (annotated par comment_text)),
           bool_decide (is_Some (py_index (sentences self) i))).
Proof.
  unfold add_comment.
  destruct (document self) as [doc|] eqn:Hdoc; [|by left].
  destruct (_ <=? _)%Z; [by left|].
  destruct (py_index (sentence_positions self) i) as [pos|] eqn:Hpos; [|by left].
  destruct pos as [pi st en tx|t r c p st en tx]; simpl.
  - destruct (paragraphs doc !! pi) as [par|] eqn:Hpar; simpl; [|by left].
    right. exists doc, (InParagraph pi st en tx), par. repeat split; try done.
    by destruct (py_index (sentences self) i).
  - destruct (cell_paragraph doc t r c p) as [par|] eqn:Hpar; simpl; [|by left].
    right. exists doc, (InTable t r c p st en tx), par. repeat split; try done.
    by destruct (py_index (sentences self) i).
Qed.

Lemma slice_prefix s e (text more : str) :
  e ≤ length text → slice s e (text ++ more) = slice s e text.
Proof.
  intros He. unfold slice.
  destruct (decide (s ≤ e)) as [Hs|Hs].
  - rewrite drop_app_le by lia. rewrite take_app_le; [done|].
    rewrite length_drop. lia.
  - replace (e - s) with 0 by lia. done.
Qed.

Lemma describes_after_annotation doc loc par comment_text r :
  resolve doc loc = Some par →
  describes doc r →
  describes (replace_at doc loc (annotated par comment_text)) r.
Proof.
  intros Hres (p & Hp & Ht & Hb & Hs & Hne).
  destruct (decide (loc = locator r.2)) as [->|Hloc].
  - assert (p = par) as -> by congruence.
    exists (annotated par comment_text).
    split; [by eapply resolve_replace|]. split; [done|].
    rewrite annotated_text. split; [rewrite length_app; lia|].
    split; [|done]. rewrite slice_prefix by lia. done.
  - exists p. split; [by rewrite resolve_replace_other|]. done.
Qed.

(** X4: [add_comment] touches at most one paragraph.  The path, the
    sentences and the positions stay as they are; when the index finds
    no position the processor is left as it was; otherwise the document
    afterwards is the old one, or the old one with the paragraph the
    position points at replaced by its annotated form, so that every
    other paragraph reads as before. *)
Theorem add_comment_changes_one_paragraph self i comment_text :
  let self' := (add_comment self i comment_text).1 in
  file_path self' = file_path self
  ∧ sentences self' = sentences self
  ∧ sentence_positions self' = sentence_positions self
  ∧ (document self = None → document self' = None)
  ∧ (py_index (sentence_positions self) i = None → self' = self)
  ∧ ∀ doc, document self = Some doc →
      ∃ doc', document self' = Some doc'
        ∧ length (paragraphs doc') = length (paragraphs doc)
        ∧ length (tables doc') = length (tables doc)
        ∧ (doc' = doc
           ∨ ∃ pos par,
               py_index (sentence_positions self) i = Some pos
               ∧ resolve doc (locator pos) = Some par
               ∧ doc' = replace_at doc (locator pos)
                          (annotated par comment_text))
        ∧ (∀ loc,
             (∀ pos, py_index (sentence_positions self) i = Some pos →
                     loc ≠ locator pos) →
             resolve doc' loc = resolve doc loc)
        ∧ ∀ pos loc, py_index (sentence_positions self) i = Some pos →
            loc ≠ locator pos → resolve doc' loc = resolve doc loc.
Proof.
  intros self'. subst self'.
  destruct (add_comment_cases self i comment_text)
    as [->|(doc & pos & par & Hdoc & Hpos & Hres & ->)]; simpl.
  - split_and!; try done. intros doc Hdoc. exists doc.
    split_and!; try done. by left.
  - split_and!; try done; [congruence..|].
    intros doc0 Hdoc0. assert (doc0 = doc) as -> by congruence.
    eexists. split; [done|].
    split; [destruct (locator pos); simpl; by rewrite ?length_insert|].
    split; [destruct (locator pos); simpl; by rewrite ?length_alter|].
    split; [right; by exists pos, par|].
    split.
    + intros loc Hloc. specialize (Hloc pos Hpos).
      by apply resolve_replace_other.
    + intros pos' loc Hpos' Hloc. assert (pos' = pos) as -> by congruence.
      by apply resolve_replace_other.
Qed.

(** X5: when the two lists of the processor have the same length, a call
    of [add_comment] that returns [False] has changed nothing. *)
Theorem add_comment_failure_changes_nothing self i comment_text :
  length (sentences self) = length (sentence_positions self) →
  (add_comment self i comment_text).2 = false →
  (add_comment self i comment_text).1 = self.
Proof.
  intros Hlen.
  destruct (add_comment_cases self i comment_text)
    as [->|(doc & pos & par & Hdoc & Hpos & Hres & ->)]; simpl; [done|].
  intros Hfalse. apply bool_decide_eq_false in Hfalse. exfalso. apply Hfalse.
  apply py_index_is_Some. rewrite Hlen. apply py_index_is_Some. eauto.
Qed.

(** X6: annotation keeps the catalog valid.  Every record that described
    the document before a call of [add_comment] describes it afterwards:
    its paragraph is still there, and the text between its offsets is
    still its sentence, because the marker is appended after the old
    text. *)
Theorem add_comment_keeps_records_valid self doc i comment_text r :
  document self = Some doc →
  describes doc r →
  ∃ doc', document (add_comment self i comment_text).1 = Some doc'
          ∧ describes doc' r.
Proof.
  intros Hdoc Hr.
  destruct (add_comment_cases self i comment_text)
    as [->|(doc0 & pos & par & Hdoc0 & Hpos & Hres & ->)]; simpl.
  - eauto.
  - assert (doc0 = doc) as -> by congruence.
    eexists. split; [done|]. by apply describes_after_annotation.
Qed.
End Annotation.
Module OutputPath.
Import Path.

Lemma rfind_from_absent c x i last :
  c ∉ x → rfind_from c x i last = last.
Proof.
  revert i last. induction x as [|a x IH]; intros i last Hx; simpl; [done|].
  apply not_elem_of_cons in Hx as [Hne Hx].
  rewrite IH by done. destruct (N.eqb_spec a c); congruence.
Qed.

Lemma rfind_from_app_absent c s x i last :
  c ∉ x → rfind_from c (s ++ x) i last = rfind_from c s i last.
Proof.
  intros Hx. revert i last. induction s as [|a s IH]; intros i last; simpl.
  - by apply rfind_from_absent.
  - apply IH.
Qed.

Lemma rfind_from_snoc c s i last :
  rfind_from c (s ++ [c]) i last = Z.of_nat (i + length s).
Proof.
  revert i last. induction s as [|a s IH]; intros i last; simpl.
  - rewrite N.eqb_refl. f_equal. lia.
  - rewrite IH. f_equal. lia.
Qed.

Lemma rfind_last c pre x :
  c ∉ x → rfind c (pre ++ c :: x) = Z.of_nat (length pre).
Proof.
  intros Hx. unfold rfind.
  rewrite (cons_middle c pre x), app_assoc, rfind_from_app_absent by done.
  by rewrite rfind_from_snoc.
Qed.

Lemma rfind_absent c x : c ∉ x → rfind c x = (-1)%Z.
Proof. apply rfind_from_absent. Qed.

Lemma last_occurrence c (s : str) :
  c ∉ s ∨ ∃ pre x, s = pre ++ c :: x ∧ c ∉ x.
Proof.
  induction s as [|a s IH]; [left; apply not_elem_of_nil|].
  destruct IH as [Hs|(pre & x & -> & Hx)].
  - destruct (decide (a = c)) as [->|Hne].
    + right. exists [], s. done.
    + left. by apply not_elem_of_cons.
  - right. exists (a :: pre), x. done.
Qed.

Lemma basename_absent x : sep ∉ x → basename x = x.
Proof. intros Hx. unfold basename. by rewrite rfind_absent. Qed.

Lemma basename_last pre x : sep ∉ x → basename (pre ++ sep :: x) = x.
Proof.
  intros Hx. unfold basename. rewrite rfind_last by done.
  replace (Z.to_nat (Z.of_nat (length pre) + 1)) with (S (length pre)) by lia.
  rewrite (cons_middle sep pre x), app_assoc.
  rewrite drop_app_length'; [done|]. rewrite length_app. simpl. lia.
Qed.

Lemma basename_no_sep p : sep ∉ basename p.
Proof.
  destruct (last_occurrence sep p) as [Hp|(pre & x & -> & Hx)].
  - by rewrite basename_absent.
  - by rewrite basename_last.
Qed.

Lemma startswith_sep x : sep ∉ x → startswith [sep] x = false.
Proof.
  destruct x as [|a x]; [done|]. intros Hx.
  apply not_elem_of_cons in Hx as [Hne _]. unfold startswith.
  apply not_eq_sym, N.eqb_neq in Hne. by rewrite N.eqb_sym, Hne.
Qed.

Lemma endswith_sep a : endswith [sep] a = true → ∃ a', a = a' ++ [sep].
Proof.
  unfold endswith. intros He.
  destruct (reverse a) as [|c r] eqn:Hr; [done|].
  change (startswith (reverse [sep]) (c :: r))
    with ((sep =? c)%N && true) in He.
  apply andb_true_iff in He as [Hc _]. apply N.eqb_eq in Hc. subst c.
  exists (reverse r). apply (f_equal reverse) in Hr.
  rewrite reverse_involutive in Hr. by rewrite Hr, reverse_cons.
Qed.

Lemma basename_join d x : sep ∉ x → basename (join d x) = x.
Proof.
  intros Hx. unfold join. rewrite startswith_sep by done.
  destruct (negb (truthy d) || endswith [sep] d) eqn:Hd.
  - apply orb_true_iff in Hd as [Hd|Hd].
    + destruct d; [|done]. by apply basename_absent.
    + apply endswith_sep in Hd as [d' ->].
      rewrite <- app_assoc. simpl. by apply basename_last.
  - simpl. by apply basename_last.
Qed.

Lemma digit_not_sep n : digit n ≠ sep.
Proof.
  unfold digit, sep. pose proof (Nat.mod_upper_bound n 10). lia.
Qed.

Lemma timestamp_no_sep now : sep ∉ strftime_YmdHMS now.
Proof.
  unfold strftime_YmdHMS, pad4, pad2. simpl.
  repeat (apply not_elem_of_cons; split; [apply not_eq_sym; apply digit_not_sep|]).
  apply not_elem_of_nil.
Qed.

Lemma suffix_no_sep : (sep ∉ U "_AI校对") ∧ (sep ∉ U "_AI校对_").
Proof.
  split; vm_compute; intros Hin;
    repeat (apply elem_of_cons in Hin as [Hin|Hin]; [discriminate|]);
    by apply elem_of_nil in Hin.
Qed.

Lemma default_basename fs fp :
  ∃ name ext middle,
    splitext (basename fp) = (name, ext)
    ∧ basename (default_output_path fs fp) = name ++ middle ++ ext
    ∧ 5 ≤ length middle.
Proof.
  destruct (splitext (basename fp)) as [name ext] eqn:Hsplit.
  pose proof (PathFacts.splitext_join _ _ _ Hsplit) as Hjoin.
  pose proof (basename_no_sep fp) as Hbase. rewrite <- Hjoin in Hbase.
  apply not_elem_of_app in Hbase as [Hname Hext].
  destruct suffix_no_sep as [Hs1 Hs2].
  pose proof (timestamp_no_sep (now fs)) as Hts.
  unfold default_output_path. rewrite Hsplit.
  destruct (path_exists fs _).
  - exists name, ext, (U "_AI校对_" ++ strftime_YmdHMS (now fs)).
    split; [done|]. split.
    + rewrite basename_join; [by rewrite <- !app_assoc|].
      rewrite !not_elem_of_app. done.
    + rewrite length_app. simpl. lia.
  - exists name, ext, (U "_AI校对"). split; [done|]. split.
    + rewrite basename_join; [done|]. rewrite !not_elem_of_app. done.
    + simpl. lia.
Qed.
End OutputPath.

(** X7: the output path [save_document] derives by itself never is the path
    of the original file, so the original is not overwritten: the file
    name of the result is the original name with at least five characters
    more between name and extension. *)
Theorem default_output_path_is_new (fs : Storage) (fp : str) :
  default_output_path fs fp ≠ fp
  ∧ length (Path.basename (default_output_path fs fp))
    ≥ length (Path.basename fp) + 5.
Proof.
  destruct (OutputPath.default_basename fs fp)
    as (name & ext & middle & Hsplit & Hbase & Hlen).
  apply PathFacts.splitext_join in Hsplit.
  assert (Hlonger : length (Path.basename (default_output_path fs fp))
                    ≥ length (Path.basename fp) + 5).
  { rewrite Hbase, <- Hsplit, !length_app. lia. }
  split; [|done]. intros Heq. rewrite Heq in Hlonger. lia.
Qed.
Section ApiProperties.
Variable json_loads : str → option json.

(** What [extract] does with a response whose message content is
    [content]. *)
Lemma extract_message_content response_data content :
  message_content response_data = Some content →
  extract json_loads response_data
  = match json_loads (json_text content) with
    | None => Failure (InvalidJson content)
    | Some result => check_fields content result
    end.
Proof.
  unfold message_content, extract. intros Hm.
  destruct response_data as [ |b|z|f|s|l|d]; try done. cbn [py_getitem py_in] in *.
  destruct (dict_get (U "choices") d) as [choices|] eqn:Hc; [|done].
  rewrite bool_decide_eq_true_2 by eauto.
  destruct choices as [ |b|z|f|s|l|d']; try done.
  - destruct s as [|c s]; [done|]. cbn [py_first py_len length] in *.
    done.
  - destruct l as [|choice l]; [done|]. cbn [py_first py_len length] in *.
    destruct (py_getitem (U "message") choice) as [e|message]; [done|].
    destruct (py_getitem (U "content") message) as [e|[ |b|z|f|s|l'|d']];
      try done.
    by inversion Hm.
Qed.

Lemma extract_success_content response_data r :
  extract json_loads response_data = Success r →
  ∃ content,
    message_content response_data = Some content
    ∧ json_loads (json_text content) = Some r.
Proof.
  unfold extract, message_content. intros He.
  repeat match type of He with
         | match ?x with _ => _ end = _ => destruct x eqn:?; try discriminate
         end.
  apply check_fields_success in He as [-> _]. eauto.
Qed.

Lemma all_in_each keys r :
  all_in keys r = inr true ↔ ∀ key, key ∈ keys → py_in key r = inr true.
Proof.
  induction keys as [|k keys IH]; simpl.
  - split; [by intros _ key ?%elem_of_nil|done].
  - split.
    + intros Ha key Hkey.
      destruct (py_in k r) as [e|[|]] eqn:Hk; try done.
      apply elem_of_cons in Hkey as [->|Hkey]; [done|]. by apply IH.
    + intros Hall. rewrite (Hall k) by left. apply IH.
      intros key Hkey. apply Hall. by right.
Qed.

(** X8: [proofread_sentence] reports success with [r] exactly when the
    sentence is not blank, the response has status 200 and a body, the
    content of the first choice's message in that body is a string that
    [json.loads] parses to [r] (after the handling of Markdown fences),
    and each of the four names is found in [r]. *)
Theorem proofread_success_means (http : HttpOutcome) (sentence : str)
    (r : json) :
  proofread_sentence json_loads http sentence = Success r
  ↔ truthy (strip sentence) = true
    ∧ (∃ response_data content,
         http = Response 200 (inr response_data)
         ∧ message_content response_data = Some content
         ∧ json_loads (json_text content) = Some r)
    ∧ ∀ key, key ∈ required_fields → py_in key r = inr true.
Proof.
  split.
  - intros Hs. pose proof (proofread_success _ _ _ _ Hs) as Hall.
    unfold proofread_sentence in Hs.
    destruct (truthy (strip sentence)); [|done]. simpl in Hs.
    destruct http as [e|status body]; [done|].
    destruct (Z.eqb_spec status 200) as [->|]; [|done]. simpl in Hs.
    destruct body as [e|response_data]; [done|].
    split; [done|].
    destruct (extract_success_content _ _ Hs) as (content & Hm & Hj).
    split; [by exists response_data, content|].
    by apply all_in_each.
  - intros (Hs & (response_data & content & -> & Hm & Hj) & Hall).
    unfold proofread_sentence. rewrite Hs. simpl.
    rewrite (extract_message_content _ _ Hm), Hj.
    unfold check_fields. by rewrite (proj2 (all_in_each _ _) Hall).
Qed.

End ApiProperties.

Section Fences.
Lemma lstrip_visible c t : py_isspace c = false → lstrip (c :: t) = c :: t.
Proof. intros Hc. simpl. by rewrite Hc. Qed.

Lemma strip_visible_ends c m d :
  py_isspace c = false → py_isspace d = false →
  strip (c :: m ++ [d]) = c :: m ++ [d].
Proof.
  intros Hc Hd. unfold strip, rstrip. rewrite lstrip_visible by done.
  rewrite (app_comm_cons m [d] c), reverse_app.
  change (reverse [d] ++ reverse (c :: m)) with (d :: reverse (c :: m)).
  rewrite lstrip_visible by done.
  by rewrite reverse_cons, reverse_involutive.
Qed.

Lemma startswith_app p r : startswith p (p ++ r) = true.
Proof. induction p as [|a p IH]; [done|]. simpl. by rewrite N.eqb_refl. Qed.

Lemma contains_app p a b : contains p (a ++ p ++ b) = true.
Proof.
  induction a as [|x a IH]; simpl.
  - destruct (p ++ b) eqn:Hpb; simpl; rewrite <- ?Hpb, startswith_app; done.
  - rewrite IH. apply orb_true_r.
Qed.

Lemma split_from_fence rest cur :
  split_from fence (fence ++ rest) 0 cur
  = reverse cur :: split_from fence rest 0 [].
Proof. reflexivity. Qed.

Lemma split_from_plain m t cur :
  backtick ∉ m →
  split_from fence (m ++ t) 0 cur = split_from fence t 0 (reverse m ++ cur).
Proof.
  revert cur. induction m as [|a m IH]; intros cur Hm; [done|].
  apply not_elem_of_cons in Hm as [Hne Hm].
  change ((a :: m) ++ t) with (a :: (m ++ t)).
  cbn [split_from].
  assert (startswith fence (a :: m ++ t) = false) as ->.
  { change fence with [backtick; backtick; backtick]. cbn [startswith].
    apply N.eqb_neq in Hne. by rewrite Hne. }
  rewrite IH by done. by rewrite reverse_cons, <- app_assoc.
Qed.
End Fences.
Section FenceTheorem.
Lemma split_fenced X :
  backtick ∉ X → split fence (fence ++ X ++ fence) = [[]; X; []].
Proof.
  intros HX. unfold split. rewrite split_from_fence.
  rewrite split_from_plain by done.
  change (split_from fence fence 0 (reverse X ++ []))
    with [reverse (reverse X ++ []); []].
  by rewrite app_nil_r, reverse_involutive.
Qed.

Lemma strip_fenced X : strip (fence ++ X ++ fence) = fence ++ X ++ fence.
Proof.
  assert (fence ++ X ++ fence
          = backtick :: ([backtick; backtick] ++ X ++ [backtick; backtick])
              ++ [backtick]) as ->.
  { change fence with [backtick; backtick; backtick]. simpl. do 3 f_equal.
    by rewrite <- app_assoc. }
  by apply strip_visible_ends.
Qed.

Lemma json_text_fenced X :
  backtick ∉ X →
  json_text (fence ++ X ++ fence)
  = if startswith (U "json") X then strip (drop 4 X) else strip X.
Proof.
  intros HX. unfold json_text. rewrite strip_fenced.
  rewrite startswith_app.
  change (drop 3 (fence ++ X ++ fence)) with (X ++ fence).
  pose proof (contains_app fence X []) as Hc. rewrite app_nil_r in Hc.
  rewrite Hc, split_fenced by done. done.
Qed.

(** X10: a reply wrapped in a Markdown fence is unwrapped before it is
    parsed.  For a body without backticks, the text handed to
    [json.loads] is the trimmed body, whether the opening fence is
    [```json] or a bare [```] (the body then not starting with
    [json]). *)
Theorem fenced_reply_is_unwrapped (body : str) :
  backtick ∉ body →
  json_text (fence ++ U "json" ++ body ++ fence) = strip body
  ∧ (startswith (U "json") body = false →
     json_text (fence ++ body ++ fence) = strip body).
Proof.
  intros Hbody. split.
  - rewrite (app_assoc (U "json") body fence), json_text_fenced.
    + by rewrite startswith_app.
    + apply not_elem_of_app. split; [|done]. vm_compute. intros Hin.
      repeat (apply elem_of_cons in Hin as [Hin|Hin]; [discriminate|]).
      by apply elem_of_nil in Hin.
  - intros Hplain. by rewrite json_text_fenced, Hplain.
Qed.
End FenceTheorem.
Section Dictionaries.
Lemma str_eqb_eq a b : str_eqb a b = true ↔ a = b.
Proof. unfold str_eqb. apply bool_decide_eq_true. Qed.

Lemma str_eqb_refl a : str_eqb a a = true.
Proof. by apply str_eqb_eq. Qed.

Lemma str_eqb_ne a b : a ≠ b → str_eqb a b = false.
Proof. intros Hne. unfold str_eqb. by apply bool_decide_eq_false. Qed.

Lemma dict_get_set key k value d :
  dict_get key (dict_set k value d)
  = if str_eqb k key then Some value else dict_get key d.
Proof.
  induction d as [|[k' v'] d IH]; simpl.
  - done.
  - destruct (str_eqb k' k) eqn:Hk; simpl.
    + apply str_eqb_eq in Hk as ->. by destruct (str_eqb k key).
    + rewrite IH. destruct (str_eqb k' key) eqn:Hk'; [|done].
      apply str_eqb_eq in Hk' as ->. by rewrite str_eqb_ne by (intros ->; by rewrite str_eqb_refl in Hk).
Qed.

Lemma dict_get_absent key (d : list (str * json)) :
  key ∉ d.*1 → dict_get key d = None.
Proof.
  induction d as [|[k v] d IH]; simpl; [done|].
  intros Hk. apply not_elem_of_cons in Hk as [Hne Hk].
  rewrite str_eqb_ne by done. by apply IH.
Qed.

Lemma dict_get_update key d new :
  NoDup new.*1 →
  dict_get key (dict_update d new)
  = match dict_get key new with
    | Some v => Some v
    | None => dict_get key d
    end.
Proof.
  unfold dict_update. revert d. induction new as [|[k v] new IH]; intros d Hnd;
    simpl; [done|].
  simpl in Hnd. inversion Hnd as [|? ? Hk Hnd']; subst.
  rewrite IH by done.
  rewrite dict_get_set. destruct (str_eqb k key) eqn:Heq.
  - apply str_eqb_eq in Heq as ->. by rewrite dict_get_absent.
  - done.
Qed.
End Dictionaries.

Section Validation.
Import ConfigManager.

Lemma first_missing_dict fields d :
  (first_missing fields (JDict d) = inr None ∧ Forall (filled d) fields)
  ∨ ∃ before field after,
      fields = before ++ field :: after
      ∧ first_missing fields (JDict d) = inr (Some field)
      ∧ Forall (filled d) before
      ∧ ¬ filled d field.
Proof.
  induction fields as [|f fields IH]; simpl; [by left|].
  destruct (dict_get f d) as [v|] eqn:Hf.
  - rewrite bool_decide_eq_true_2 by eauto.
    destruct (json_truthy v) eqn:Hv.
    + destruct IH as [[-> Hall]|(before & g & after & -> & -> & Hall & Hg)].
      * left. split; [done|]. constructor; [|done]. by exists v.
      * right. exists (f :: before), g, after. split; [done|]. split; [done|].
        split; [|done]. constructor; [|done]. by exists v.
    + right. exists [], f, fields. split; [done|]. split; [done|].
      split; [done|]. intros (v' & Hv' & Ht). congruence.
  - rewrite bool_decide_eq_false_2 by (by intros [? ?]).
    right. exists [], f, fields. split; [done|]. split; [done|].
    split; [done|]. intros (v' & Hv' & Ht). congruence.
Qed.
End Validation.
Section ConfigTheorems.
Import ConfigManager.

(** X11: what [validate_config] answers on a configuration that is a
    dictionary.  It is valid exactly when the three required fields are
    present and not empty and the URL is a string that starts with
    [http://] or [https://]; a missing-field answer names the first
    required field, in the order api_url, model, api_key, that is absent
    or empty; and the call raises only when every field is filled and
    the URL is not a string. *)
Theorem validate_config_verdict (self : t) (d : list (str * json)) :
  config self = JDict d →
  (validate_config self = inr Valid
   ↔ Forall (filled d) required
     ∧ ∃ url, dict_get (U "api_url") d = Some (JStr url)
              ∧ has_scheme url = true)
  ∧ (∀ field, validate_config self = inr (MissingField field)
      ↔ ∃ before after,
          required = before ++ field :: after
          ∧ Forall (filled d) before ∧ ¬ filled d field)
  ∧ (∀ e, validate_config self = inl e
      → e = AttributeError
        ∧ Forall (filled d) required
        ∧ ∃ v, dict_get (U "api_url") d = Some v ∧ ∀ url, v ≠ JStr url).
Proof.
  intros Hcfg. unfold validate_config. rewrite Hcfg.
  destruct (first_missing_dict required d)
    as [[-> Hall]|(before & f & after & Hreq & -> & Hbefore & Hf)].
  - assert (Hurl : filled d (U "api_url")).
    { rewrite Forall_forall in Hall. apply Hall. left. done. }
    destruct Hurl as (v & Hv & Hvt). cbn [py_getitem]. rewrite Hv.
    split; [|split].
    + split.
      * intros Hvalid. split; [done|].
        destruct v; try discriminate. eexists. split; [done|].
        by destruct (has_scheme s).
      * intros (_ & url & Hu & Hs). assert (v = JStr url) as -> by congruence.
        by rewrite Hs.
    + intros field. split.
      * intros Hm. destruct v; try discriminate.
        by destruct (has_scheme s).
      * intros (before & after & Hreq & Hb & Hf).
        exfalso. apply Hf. rewrite Forall_forall in Hall. apply Hall.
        rewrite Hreq. apply in_elt.
    + intros e He. destruct v; try (destruct (has_scheme s); discriminate);
        inversion He; subst; (split; [done|]); (split; [done|]);
        eexists; (split; [done|]); done.
  - split; [|split].
    + split; [done|]. intros (Hall & _). exfalso. apply Hf.
      rewrite Forall_forall in Hall. apply Hall. rewrite Hreq. apply in_elt.
    + intros field. split.
      * intros Hm. inversion Hm; subst. eauto.
      * intros (before' & after' & Hreq' & Hb' & Hf').
        f_equal. f_equal.
        (* the first unfilled field is unique *)
        rewrite Hreq in Hreq'.
        clear -Hreq' Hbefore Hf Hb' Hf'.
        revert before' Hreq' Hb'.
        induction before as [|b before IH]; intros [|b' before'] Hreq' Hb';
          simpl in Hreq'; inversion Hreq'; subst; try done.
        -- inversion Hb'; subst. done.
        -- inversion Hbefore; subst. done.
        -- inversion Hbefore; inversion Hb'; subst. eauto.
    + done.
Qed.

Lemma update_config_merged_lookup (disk : Disk) (self : t)
    (d new : list (str * json)) :
  config self = JDict d →
  NoDup new.*1 →
  ∃ d',
    (update_config disk self new).1
    = {| config_file := config_file self;
         default_config := default_config self; config := JDict d' |}
    ∧ ∀ key, dict_get key d'
             = match dict_get key new with
               | Some v => Some v
               | None => dict_get key d
               end.
Proof.
  intros Hcfg Hnd. exists (dict_update d new).
  unfold update_config. rewrite Hcfg. simpl. split; [done|].
  intros key; by apply dict_get_update.
Qed.

(** X12: [update_config] merges the new entries into the dictionary held
    in memory, whether or not the file can be written: afterwards every
    key of the new configuration has its new value, every other key its
    old one, and the flag returned says only whether the merged
    dictionary was saved. *)
Theorem update_config_merges (disk : Disk) (self : t)
    (d new : list (str * json)) :
  config self = JDict d →
  NoDup new.*1 →
  ∃ d',
    (update_config disk self new).1
    = {| config_file := config_file self;
         default_config := default_config self; config := JDict d' |}
    ∧ (∀ key, dict_get key d'
              = match dict_get key new with
                | Some v => Some v
                | None => dict_get key d
                end)
    ∧ (update_config disk self new).2
      = bool_decide (dump disk (config_file self) (JDict d') = None).
Proof.
  intros Hcfg Hnd. exists (dict_update d new).
  unfold update_config. rewrite Hcfg. simpl. split; [done|].
  split; [intros key; by apply dict_get_update|].
  unfold save_config. simpl. by destruct (dump disk _ _).
Qed.

(** X13: a configuration the dialog lets through (three fields not empty
    once trimmed), merged into a manager whose configuration is a
    dictionary, is never reported as lacking a field; it is valid exactly
    when the trimmed URL starts with [http://] or [https://]. *)
Theorem dialog_config_validates (disk : Disk) (manager : t)
    (d : list (str * json)) (url model key : str) (prompt : json)
    (config : list (str * json)) :
  ConfigManager.config manager = JDict d →
  ConfigDialog.save_config url model key prompt = Some config →
  validate_config (update_config disk manager config).1
  = inr (if has_scheme (strip url) then Valid else BadUrl).
Proof.
  intros Hcfg Hsave. unfold ConfigDialog.save_config in Hsave.
  destruct (truthy (strip url)) eqn:Hu; [|done].
  destruct (truthy (strip model)) eqn:Hm; [|done].
  destruct (truthy (strip key)) eqn:Hk; [|done].
  simpl in Hsave. inversion Hsave; subst config; clear Hsave.
  assert (Hnd : NoDup (ConfigDialog.get_config url model key prompt).*1).
  { apply (bool_decide_unpack _). vm_compute. exact I. }
  destruct (update_config_merged_lookup disk manager d _ Hcfg Hnd) as (d' & -> & Hget).
  unfold validate_config, required. simpl.
  rewrite !Hget.
  change (dict_get (U "api_url") (ConfigDialog.get_config url model key prompt))
    with (Some (JStr (strip url))).
  change (dict_get (U "model") (ConfigDialog.get_config url model key prompt))
    with (Some (JStr (strip model))).
  change (dict_get (U "api_key") (ConfigDialog.get_config url model key prompt))
    with (Some (JStr (strip key))).
  rewrite !bool_decide_eq_true_2 by eauto. cbn [json_truthy].
  rewrite Hu, Hm, Hk. by destruct (has_scheme (strip url)).
Qed.
End ConfigTheorems.
Section ClientSync.

(** X14: the client's attributes follow the manager's configuration.
    A client built from a manager whose configuration is a dictionary
    holds that dictionary's entries (an absent one as ['']), and
    [MainWindow.update_config] keeps it so: after the manager has merged
    the new entries and the client has taken those it finds, no
    exception is raised and the four attributes are again the entries of
    the manager's configuration. *)
Theorem client_follows_manager (disk : ConfigManager.Disk)
    (manager : ConfigManager.t) (d new : list (str * json)) :
  ConfigManager.config manager = JDict d →
  NoDup new.*1 →
  ∃ client,
    ApiClient.init (Some (ConfigManager.get_config manager)) = inr client
    ∧ in_sync manager client
    ∧ ∀ client0, in_sync manager client0 →
        ∃ manager' client',
          main_window_update_config disk manager client0 new
          = (manager', client', None)
          ∧ in_sync manager' client'.
Proof.
  intros Hcfg Hnd.
  assert (Hinit : ∃ client,
            ApiClient.init (Some (ConfigManager.get_config manager)) = inr client
            ∧ in_sync manager client).
  { unfold ApiClient.init, ConfigManager.get_config, in_sync. rewrite Hcfg.
    destruct d as [|entry d]; cbn [json_truthy py_get]; eexists; split; try done. }
  destruct Hinit as (client & Hinit & Hsync). exists client.
  split; [done|]. split; [done|].
  intros client0 (Hu & Hm & Hk & Hp).
  destruct (update_config_merged_lookup disk manager d new Hcfg Hnd)
    as (d' & Hm' & Hget).
  unfold main_window_update_config.
  destruct (ConfigManager.update_config disk manager new) as [manager' ok] eqn:Hup.
  simpl in Hm'. subst manager'.
  rewrite Hcfg in Hu, Hm, Hk, Hp. cbn [py_get] in Hu, Hm, Hk, Hp.
  inversion Hu as [Hu']; inversion Hm as [Hm'']; inversion Hk as [Hk'];
    inversion Hp as [Hp'].
  unfold ApiClient.update_config. cbn [py_get].
  eexists _, _. split; [done|].
  unfold in_sync. cbn [py_get ConfigManager.config ApiClient.api_url
    ApiClient.model ApiClient.api_key ApiClient.system_prompt].
  rewrite !Hget.
  repeat split; f_equal;
    match goal with
    | |- context [dict_get ?k new] => by destruct (dict_get k new)
    end.
Qed.
End ClientSync.
Section WorkerProperties.
Context `{UnicodeDB}.
Variable json_loads : str → option json.
Variable py_str : json → str.

Lemma counters_after_log_error lm sentence error :
  counters_agree lm → counters_agree (log_error lm sentence error).1.
Proof.
  intros [Ht He]. unfold counters_agree. simpl.
  rewrite !filter_app, !length_app. simpl. lia.
Qed.

(** What one visit of the loop does, case by case. *)
Lemma visit_outcome w total i sentence dp lm :
  ∃ tail dp' lm' raised,
    visit json_loads py_str w total i sentence dp lm
    = ([progressUpdated (S i) total; Classify sentence] ++ tail,
       dp', lm', raised)
    ∧ quiet tail = true
    ∧ progress_of tail = []
    ∧ classified tail = []
    ∧ (counters_agree lm → counters_agree lm')
    ∧ (asks_nothing
         (proofread_sentence json_loads (http w i sentence) sentence) →
       dp' = dp).
Proof.
  unfold visit.
  destruct (proofread_sentence json_loads (http w i sentence) sentence)
    as [result|error] eqn:Hp.
  - destruct result as [ |b|z|f|s|l|d].
    1-6: exists [], dp, lm, (Some TypeError); by split_and!.
    cbn [py_getitem].
    destruct (dict_get (U "wrong") d) as [wrong|] eqn:Hw;
      [|exists [], dp, lm, (Some KeyError); by split_and!].
    destruct (json_truthy wrong) eqn:Htruthy.
    + destruct (dict_get (U "annotation") d) as [ann|] eqn:Ha;
        [|exists [], dp, lm, (Some KeyError); split_and!; try done;
          intros Hq; specialize (Hq wrong); simpl in Hq; rewrite Hw in Hq;
          specialize (Hq eq_refl); congruence].
      unfold log_sentence. cbn [get_or_empty]. rewrite Ha. cbn [default].
      eexists [_], _, _, None. split; [reflexivity|].
      split_and!; try done.
      * intros [Ht He]. unfold counters_agree. simpl.
        rewrite !filter_app, !length_app. simpl. lia.
      * intros Hq. specialize (Hq wrong). simpl in Hq. rewrite Hw in Hq.
        specialize (Hq eq_refl). congruence.
    + unfold log_sentence.
      eexists [_], _, _, None. split; [reflexivity|].
      split_and!; try done.
      intros [Ht He]. unfold counters_agree. simpl.
      rewrite !filter_app, !length_app. simpl. lia.
  - eexists [_], _, _, None. split; [reflexivity|].
    split_and!; try done. apply counters_after_log_error.
Qed.
Lemma quiet_app a b : quiet (a ++ b) = quiet a && quiet b.
Proof. apply forallb_app. Qed.

Lemma progress_of_app a b : progress_of (a ++ b) = progress_of a ++ progress_of b.
Proof. apply omap_app. Qed.

(** What the loop does, whichever way it ends. *)
Lemma sentence_loop_outcome w total todo :
  ∀ i dp lm,
  ∃ events dp' lm' exit,
    sentence_loop json_loads py_str w total i todo dp lm
    = (events, dp', lm', exit)
    ∧ match exit with
      | Cancelled => ∃ front, events = front ++ [finished false Stopped]
                              ∧ quiet front = true
      | _ => quiet events = true
      end
    ∧ progress_of events
      = (λ j, (S j, total)) <$> seq i (length (classified events))
    ∧ classified events `prefix_of` todo
    ∧ (exit = Exhausted → classified events = todo)
    ∧ (counters_agree lm → counters_agree lm')
    ∧ ((∀ j s, asks_nothing
                 (proofread_sentence json_loads (http w j s) s)) →
       dp' = dp).
Proof.
  induction todo as [|s todo IH]; intros i dp lm.
  - exists [], dp, lm, Exhausted. simpl. split_and!; try done.
  - cbn [sentence_loop]. destruct (is_running w i) eqn:Hrun; cbn [negb].
    2:{ exists [finished false Stopped], dp, lm, Cancelled.
        split_and!; try done.
        - by exists [].
        - apply prefix_nil. }
    destruct (visit_outcome w total i s dp lm)
      as (tail & dp1 & lm1 & raised & -> & Hq & Hpr & Hcl & Hcount & Hdp).
    destruct raised as [e|].
    + exists ([progressUpdated (S i) total; Classify s] ++ tail), dp1, lm1, (Threw e).
      split; [done|]. rewrite quiet_app, progress_of_app, classified_app.
      rewrite Hq, Hpr, Hcl. simpl.
      split_and!; try done; [|auto].
      apply prefix_cons, prefix_nil.
    + destruct (IH (S i) dp1 lm1)
        as (later & dp2 & lm2 & exit & -> & Hexit & Hprog & Hpre & Hall & Hc2 & Hd2).
      exists (([progressUpdated (S i) total; Classify s] ++ tail) ++ later),
        dp2, lm2, exit.
      split; [done|].
      rewrite !progress_of_app, !classified_app, Hpr, Hcl, Hprog. simpl.
      split_and!.
      * destruct exit.
        -- by rewrite !quiet_app, Hexit, Hq.
        -- destruct Hexit as (front & -> & Hfront).
           exists (([progressUpdated (S i) total; Classify s] ++ tail) ++ front).
           split; [by rewrite <- !app_assoc|].
           by rewrite !quiet_app, Hfront, Hq.
        -- by rewrite !quiet_app, Hexit, Hq.
      * done.
      * by apply prefix_cons.
      * intros He. by rewrite Hall.
      * auto.
      * intros Hquiet. rewrite Hd2 by done. auto.
Qed.

(** The failures in the log and the failure signals go together. *)
Lemma visit_failures w total i sentence dp lm :
  omap failed_entry (logs (visit json_loads py_str w total i sentence dp lm).1.2)
  = omap failed_entry (logs lm)
    ++ omap failure_signal
         (visit json_loads py_str w total i sentence dp lm).1.1.1.
Proof.
  unfold visit, log_sentence, log_error, get_or_empty.
  repeat case_match; simplify_eq; simpl;
    rewrite ?omap_app, ?app_nil_r; done.
Qed.

Lemma sentence_loop_failures w total todo :
  ∀ i dp lm,
    omap failed_entry
      (logs (sentence_loop json_loads py_str w total i todo dp lm).1.2)
    = omap failed_entry (logs lm)
      ++ omap failure_signal
           (sentence_loop json_loads py_str w total i todo dp lm).1.1.1.
Proof.
  induction todo as [|s todo IH]; intros i dp lm.
  - simpl. by rewrite app_nil_r.
  - cbn [sentence_loop]. destruct (is_running w i); cbn [negb];
      [|simpl; by rewrite app_nil_r].
    pose proof (visit_failures w total i s dp lm) as Hvisit.
    destruct (visit json_loads py_str w total i s dp lm)
      as [[[events dp1] lm1] [e|]]; [done|].
    specialize (IH (S i) dp1 lm1).
    destruct (sentence_loop json_loads py_str w total (S i) todo dp1 lm1)
      as [[[later dp2] lm2] exit].
    simpl in *. by rewrite IH, Hvisit, omap_app, app_assoc.
Qed.

(** The entries of a log are those of sentences checked and those of
    failures. *)
Lemma checked_or_failed (l : list LogEntry) :
  length (List.filter is_checked l) + length (omap failed_entry l) = length l.
Proof.
  induction l as [|[s b a c|s e] l IH]; [done| |].
  - change (S (length (List.filter is_checked l))
            + length (omap failed_entry l) = S (length l)). lia.
  - change (length (List.filter is_checked l)
            + S (length (omap failed_entry l)) = S (length l)). lia.
Qed.

(** A run whose document cannot be loaded. *)
Lemma run_not_loaded w path lm :
  truthy path = false ∨ open_document w path = None →
  run json_loads py_str w path lm = Some ([finished false LoadFailed], lm).
Proof.
  intros Hno. unfold run, load_document. simpl.
  destruct (truthy path); simpl; [|done].
  destruct Hno as [Hno|Hno]; [done|]. by rewrite Hno.
Qed.

(** A run whose document holds no sentence. *)
Lemma run_no_sentences w path lm doc :
  truthy path = true → open_document w path = Some doc →
  (catalog doc).*1 = [] →
  run json_loads py_str w path lm = Some ([finished false NoSentences], lm).
Proof.
  intros Hpath Hopen Hcat. unfold run, load_document. simpl.
  rewrite Hpath. simpl. rewrite Hopen.
  rewrite (split_into_sentences_catalog _ doc) by done. simpl.
  by rewrite Hcat.
Qed.

(** A run whose document is loaded, up to the loop. *)
Lemma run_loaded w path lm doc todo :
  truthy path = true → open_document w path = Some doc →
  (catalog doc).*1 = todo → todo ≠ [] →
  run json_loads py_str w path lm
  = match sentence_loop json_loads py_str w (length todo) 0 todo
            {| file_path := Some path; document := Some doc;
               sentences := todo;
               sentence_positions := (catalog doc).*2 |}
            (start_logging lm) with
    | (events, _, lm, Cancelled) => Some (events, lm)
    | (events, _, lm, Threw e) =>
        Some (events ++ [finished false (Crashed e)], lm)
    | (events, doc_processor, lm, Exhausted) =>
        match save_document (storage w) doc_processor None with
        | Saved p =>
            Some (events ++ [logUpdated (finish_logging lm p).2;
                             finished true (SaveOutcome (Saved p))],
                  (finish_logging lm p).1)
        | failure =>
            Some (events ++ [finished false (SaveOutcome failure)], lm)
        end
    end.
Proof.
  intros Hpath Hopen Hcat Hne. unfold run, load_document. simpl.
  rewrite Hpath. simpl. rewrite Hopen.
  rewrite (split_into_sentences_catalog _ doc) by done. simpl.
  rewrite Hcat. destruct todo; [done|reflexivity].
Qed.

(** The loop does not change the path of the processor. *)
Lemma sentence_loop_keeps_path w total todo :
  ∀ i dp lm,
    file_path (sentence_loop json_loads py_str w total i todo dp lm).1.1.2
    = file_path dp.
Proof.
  induction todo as [|s todo IH]; intros i dp lm; [done|].
  cbn [sentence_loop]. destruct (is_running w i); cbn [negb]; [|done].
  assert (∀ text, file_path (add_comment dp (Z.of_nat i) text).1
                  = file_path dp) as Hadd.
  { intros text. unfold add_comment.
    repeat (case_match; try done). }
  assert (file_path (visit json_loads py_str w total i s dp lm).1.1.2
          = file_path dp) as Hvisit.
  { unfold visit. repeat (case_match; simplify_eq; try done); apply Hadd. }
  specialize (IH (S i)).
  destruct (visit json_loads py_str w total i s dp lm)
    as [[[events dp1] lm1] [e|]]; [done|].
  specialize (IH dp1 lm1).
  destruct (sentence_loop json_loads py_str w total (S i) todo dp1 lm1)
    as [[[later dp2] lm2] exit].
  simpl in *. congruence.
Qed.

(** The classifier is called for a sentence only in an iteration that
    found [is_running] true. *)
Lemma sentence_loop_running w total todo :
  ∀ i dp lm j,
    j < length (classified
                  (sentence_loop json_loads py_str w total i todo dp lm).1.1.1) →
    is_running w (i + j) = true.
Proof.
  induction todo as [|s todo IH]; intros i dp lm j Hj.
  - simpl in Hj. lia.
  - cbn [sentence_loop] in Hj.
    destruct (is_running w i) eqn:Hrun; cbn [negb] in Hj;
      [|simpl in Hj; lia].
    destruct (visit_outcome w total i s dp lm)
      as (tail & dp1 & lm1 & raised & Heq & _ & _ & Hcl & _).
    rewrite Heq in Hj. destruct raised as [e|].
    + cbn [fst] in Hj. rewrite classified_app, Hcl in Hj. simpl in Hj.
      assert (j = 0) as -> by lia. by rewrite Nat.add_0_r.
    + specialize (IH (S i) dp1 lm1).
      destruct (sentence_loop json_loads py_str w total (S i) todo dp1 lm1)
        as [[[later dp2] lm2] exit].
      cbn [fst] in Hj, IH. rewrite !classified_app, Hcl in Hj. simpl in Hj.
      destruct j as [|j]; [by rewrite Nat.add_0_r|].
      replace (i + S j) with (S i + j) by lia. apply IH. lia.
Qed.

(** X15: every run returns, and the events of a run end with a
    [finished] signal, the only one of the run. *)
Theorem run_finishes_once w path lm :
  ∃ front success message lm',
    run json_loads py_str w path lm
    = Some (front ++ [finished success message], lm')
    ∧ quiet front = true.
Proof.
  destruct (truthy path) eqn:Hpath;
    [|exists [], false, LoadFailed, lm; by rewrite run_not_loaded by auto].
  destruct (open_document w path) as [doc|] eqn:Hopen;
    [|exists [], false, LoadFailed, lm; by rewrite run_not_loaded by auto].
  destruct (catalog doc).*1 as [|s0 ss] eqn:Hcat;
    [exists [], false, NoSentences, lm; by rewrite (run_no_sentences w path lm doc)|].
  rewrite (run_loaded w path lm doc (s0 :: ss)) by done.
  destruct (sentence_loop_outcome w (length (s0 :: ss)) (s0 :: ss) 0
              {| file_path := Some path; document := Some doc;
                 sentences := s0 :: ss;
                 sentence_positions := (catalog doc).*2 |}
              (start_logging lm))
    as (events & dp' & lm' & exit & -> & Hexit & _).
  destruct exit.
  - destruct (save_document (storage w) dp' None) as [p| |e].
    + exists (events ++ [logUpdated (finish_logging lm' p).2]), true,
        (SaveOutcome (Saved p)), (finish_logging lm' p).1.
      split; [by rewrite <- app_assoc|]. by rewrite quiet_app, Hexit.
    + by exists events, false, (SaveOutcome NotLoaded), lm'.
    + by exists events, false, (SaveOutcome (SaveFailed e)), lm'.
  - destruct Hexit as (front & -> & Hfront).
    by exists front, false, Stopped, lm'.
  - by exists events, false, (Crashed e), lm'.
Qed.

(** X16: a run reports success only after every sentence of the
    document went to the classifier, in the order of the catalog, and
    the document was written to the default output path; the log
    manager then holds that path, and the last log text is the summary
    with its counters. *)
Theorem success_means_classified_and_saved w path lm events message lm' :
  run json_loads py_str w path lm
  = Some (events ++ [finished true message], lm') →
  ∃ doc front,
    open_document w path = Some doc
    ∧ classified events = (catalog doc).*1
    ∧ message = SaveOutcome (Saved (default_output_path (storage w) path))
    ∧ save_path lm' = Some (default_output_path (storage w) path)
    ∧ events = front ++ [logUpdated
                           (Summary (total_count lm') (error_count lm')
                              (default_output_path (storage w) path))]
    ∧ quiet front = true.
Proof.
  intros Hrun.
  destruct (truthy path) eqn:Hpath.
  2:{ rewrite run_not_loaded in Hrun by auto.
      injection Hrun as Hev _. by destruct events as [|? [|]]. }
  destruct (open_document w path) as [doc|] eqn:Hopen.
  2:{ rewrite run_not_loaded in Hrun by auto.
      injection Hrun as Hev _. by destruct events as [|? [|]]. }
  destruct (catalog doc).*1 as [|s0 ss] eqn:Hcat.
  { rewrite (run_no_sentences w path lm doc) in Hrun by done.
    injection Hrun as Hev _. by destruct events as [|? [|]]. }
  rewrite (run_loaded w path lm doc (s0 :: ss)) in Hrun by done.
  destruct (sentence_loop_outcome w (length (s0 :: ss)) (s0 :: ss) 0
              {| file_path := Some path; document := Some doc;
                 sentences := s0 :: ss;
                 sentence_positions := (catalog doc).*2 |}
              (start_logging lm))
    as (evs & dp' & lm1 & exit & Heq & Hexit & _ & _ & Hall & _).
  rewrite Heq in Hrun. destruct exit.
  - unfold save_document in Hrun.
    destruct (document dp') as [doc'|];
      [|injection Hrun as Hev _; by apply app_inj_tail in Hev as [_ [=]]].
    destruct (file_path dp') as [fp|] eqn:Hfp;
      [|injection Hrun as Hev _; by apply app_inj_tail in Hev as [_ [=]]].
    assert (fp = path) as ->.
    { pose proof (sentence_loop_keeps_path w (length (s0 :: ss)) (s0 :: ss) 0
                    {| file_path := Some path; document := Some doc;
                       sentences := s0 :: ss;
                       sentence_positions := (catalog doc).*2 |}
                    (start_logging lm)) as Hkeep.
      rewrite Heq in Hkeep. simpl in Hkeep. congruence. }
    destruct (write (storage w) doc' _);
      [injection Hrun as Hev _; by apply app_inj_tail in Hev as [_ [=]]|].
    injection Hrun as Hev <-.
    change [logUpdated ?a; ?b] with ([logUpdated a] ++ [b]) in Hev.
    rewrite app_assoc in Hev. apply app_inj_tail in Hev as [<- [= <-]].
    exists doc, evs. rewrite classified_app, app_nil_r.
    split_and!; try done. rewrite Hcat. by apply Hall.
  - destruct Hexit as (front & -> & _). injection Hrun as Hev _.
    by apply app_inj_tail in Hev as [_ [=]].
  - injection Hrun as Hev _. by apply app_inj_tail in Hev as [_ [=]].
Qed.

(** X17: the counters of the log manager keep saying what the log holds:
    [total_count] the sentences checked, [error_count] those with an
    error found, whichever way the run ends.  A sentence whose
    classification failed is logged and not counted: the log and the
    run are untouched by a run that stops before the loop, and
    otherwise the entries of [log_error] in the log are, in order, the
    failures signalled during the run, and they make up the difference
    between the length of the log and [total_count]. *)
Theorem run_keeps_counters w path lm events lm' :
  counters_agree lm →
  run json_loads py_str w path lm = Some (events, lm') →
  counters_agree lm'
  ∧ total_count lm' + length (omap failed_entry (logs lm')) = length (logs lm')
  ∧ ((omap failure_signal events = [] ∧ lm' = lm)
     ∨ omap failed_entry (logs lm') = omap failure_signal events).
Proof.
  intros Hlm Hrun.
  assert (Hsum : ∀ m, counters_agree m →
            total_count m + length (omap failed_entry (logs m))
            = length (logs m)).
  { intros m [-> _]. apply checked_or_failed. }
  destruct (truthy path) eqn:Hpath.
  2:{ rewrite run_not_loaded in Hrun by auto. injection Hrun as <- <-.
      split_and!; auto. }
  destruct (open_document w path) as [doc|] eqn:Hopen.
  2:{ rewrite run_not_loaded in Hrun by auto. injection Hrun as <- <-.
      split_and!; auto. }
  destruct (catalog doc).*1 as [|s0 ss] eqn:Hcat.
  { rewrite (run_no_sentences w path lm doc) in Hrun by done.
    injection Hrun as <- <-. split_and!; auto. }
  rewrite (run_loaded w path lm doc (s0 :: ss)) in Hrun by done.
  pose proof (sentence_loop_failures w (length (s0 :: ss)) (s0 :: ss) 0
                {| file_path := Some path; document := Some doc;
                   sentences := s0 :: ss;
                   sentence_positions := (catalog doc).*2 |}
                (start_logging lm)) as Hfail.
  destruct (sentence_loop_outcome w (length (s0 :: ss)) (s0 :: ss) 0
              {| file_path := Some path; document := Some doc;
                 sentences := s0 :: ss;
                 sentence_positions := (catalog doc).*2 |}
              (start_logging lm))
    as (evs & dp' & lm1 & exit & Heq & _ & _ & _ & _ & Hcount & _).
  rewrite Heq in Hrun, Hfail. cbn [fst snd] in Hfail.
  change (logs (start_logging lm)) with (@nil LogEntry) in Hfail.
  cbn [omap list_omap app] in Hfail.
  assert (counters_agree lm1) as Hlm1 by (by apply Hcount).
  assert (counters_agree lm'
          ∧ omap failed_entry (logs lm') = omap failure_signal events)
    as [Hagree Hsame].
  { destruct exit.
    - destruct (save_document (storage w) dp' None);
        injection Hrun as <- <-;
        (split; [exact Hlm1|]);
        by rewrite omap_app, app_nil_r.
    - injection Hrun as <- <-. done.
    - injection Hrun as <- <-. split; [done|].
      by rewrite omap_app, app_nil_r. }
  split_and!; auto.
Qed.

(** X18: when no classification calls for an annotation, the loop leaves
    the processor, and with it the document, as it was. *)
Theorem quiet_loop_leaves_document w total todo i dp lm :
  (∀ j s, asks_nothing (proofread_sentence json_loads (http w j s) s)) →
  (sentence_loop json_loads py_str w total i todo dp lm).1.1.2 = dp.
Proof.
  intros Hquiet.
  destruct (sentence_loop_outcome w total todo i dp lm)
    as (events & dp' & lm' & exit & -> & _ & _ & _ & _ & _ & Hdp).
  by apply Hdp.
Qed.

(** X19: the sentences handed to the classifier are the first sentences
    of the catalog, each in an iteration that found [is_running] true,
    and the progress signals count them: [(1, total)], [(2, total)],
    ... with [total] the number of sentences of the catalog. *)
Theorem run_progress_counts_classified w path lm doc events lm' :
  open_document w path = Some doc →
  run json_loads py_str w path lm = Some (events, lm') →
  classified events `prefix_of` (catalog doc).*1
  ∧ progress_of events
    = (λ j, (S j, length (catalog doc))) <$> seq 0 (length (classified events))
  ∧ ∀ j, j < length (classified events) → is_running w j = true.
Proof.
  intros Hopen Hrun.
  destruct (truthy path) eqn:Hpath.
  2:{ rewrite run_not_loaded in Hrun by auto. injection Hrun as <- _.
      split_and!; [apply prefix_nil|done|simpl; lia]. }
  destruct (catalog doc).*1 as [|s0 ss] eqn:Hcat.
  { rewrite (run_no_sentences w path lm doc) in Hrun by done.
    injection Hrun as <- _. split_and!; [done|done|simpl; lia]. }
  rewrite (run_loaded w path lm doc (s0 :: ss)) in Hrun by done.
  assert (length (catalog doc) = length (s0 :: ss)) as ->
    by (by rewrite <- Hcat, length_fmap).
  pose proof (sentence_loop_running w (length (s0 :: ss)) (s0 :: ss) 0
                {| file_path := Some path; document := Some doc;
                   sentences := s0 :: ss;
                   sentence_positions := (catalog doc).*2 |}
                (start_logging lm)) as Hrunning.
  destruct (sentence_loop_outcome w (length (s0 :: ss)) (s0 :: ss) 0
              {| file_path := Some path; document := Some doc;
                 sentences := s0 :: ss;
                 sentence_positions := (catalog doc).*2 |}
              (start_logging lm))
    as (evs & dp' & lm1 & exit & Heq & _ & Hprog & Hpre & _).
  rewrite Heq in Hrun, Hrunning. cbn [fst] in Hrunning.
  assert (classified events = classified evs
          ∧ progress_of events = progress_of evs) as [-> ->].
  { destruct exit.
    - destruct (save_document (storage w) dp' None);
        injection Hrun as <- _;
        by rewrite classified_app, progress_of_app, !app_nil_r.
    - by injection Hrun as <- _.
    - injection Hrun as <- _.
      by rewrite classified_app, progress_of_app, !app_nil_r. }
  split_and!; [done|done|]. intros j Hj. by apply (Hrunning j).
Qed.
End WorkerProperties.
Section ExportedLog.

Lemma omap_step {A B} (f : A → option B) (x : A) (l : list A) :
  omap f (x :: l)
  = match f x with Some y => y :: omap f l | None => omap f l end.
Proof. reflexivity. Qed.

Lemma export_entries_labelled (only_errors : bool) (l : list LogEntry) :
  ∀ f : nat → LogEntry → nat * nat * LogEntry,
    omap id (imap (λ i log, if skipped only_errors log then None
                            else Some (f i log)) l)
    = omap (λ x, if skipped only_errors x.1 then None else Some x.2)
        (imap (λ i log, (log, f i log)) l).
Proof.
  induction l as [|log l IH]; intros f; [done|].
  specialize (IH (λ i, f (S i))). cbn [imap]. unfold compose.
  rewrite !omap_step. cbn [fst snd id].
  destruct (skipped only_errors log); cbn [id]; by rewrite IH.
Qed.

Lemma written_counts (only_errors : bool) (l : list LogEntry) :
  ∀ f : nat → LogEntry → nat * nat * LogEntry,
    (∀ i log, (f i log).2 = log) →
    let written :=
      omap (λ x, if skipped only_errors x.1 then None else Some x.2)
        (imap (λ i log, (log, f i log)) l) in
    length (List.filter (λ item : nat * nat * LogEntry,
                           has_error_entry item.2) written)
    = length (List.filter is_flagged l)
    ∧ length (List.filter (λ item : nat * nat * LogEntry,
                             is_checked item.2
                             && negb (has_error_entry item.2)) written)
      + length (List.filter is_flagged l)
      = (if only_errors then length (List.filter is_flagged l)
         else length (List.filter is_checked l))
    ∧ (only_errors = false → written = imap f l)
    ∧ ∀ item, item ∈ written
              ↔ item ∈ imap f l ∧ skipped only_errors item.2 = false.
Proof.
  induction l as [|log l IH]; intros f Hf.
  - simpl. split_and!; try done; [by destruct only_errors|].
    intros item. split; [by intros ?%elem_of_nil|by intros [?%elem_of_nil _]].
  - cbn [imap]. unfold compose. rewrite omap_step.
    destruct (IH (λ i, f (S i)) (λ i, Hf (S i))) as (H1 & H2 & H3 & H4).
    cbn zeta in H1, H2, H3, H4.
    set (rest := omap _ (imap (λ i log0, (log0, f (S i) log0)) l)) in *.
    cbn [fst snd].
    destruct (skipped only_errors log) eqn:Hskip.
    + unfold skipped in Hskip.
      destruct only_errors; [|done].
      destruct log as [s [|] a c|s e]; try done. cbn [omap option_bind].
      simpl. split_and!; try done.
      intros item. rewrite H4, elem_of_cons. split; [tauto|].
      intros [[->|Hin] Hk]; [|done]. exfalso.
      rewrite Hf in Hk. done.
    + simpl. rewrite Hf.
      split_and!.
      * unfold skipped in Hskip.
        destruct log as [s [|] a c|s e]; simpl; by rewrite ?H1.
      * unfold skipped in Hskip.
        destruct log as [s [|] a c|s e], only_errors; simpl in *;
          try done; lia.
      * intros Hno. by rewrite H3.
      * intros item. rewrite !elem_of_cons, H4. split.
        -- intros [->|[Hin Hk]]; [|tauto].
           split; [by left|by rewrite Hf].
        -- intros [[->|Hin] Hk]; [by left|by right].
Qed.

(** X20: the numbers in the header of an exported log agree with its
    body.  When the counters say what the log holds, the entries written
    with an error number [error_count], in a full export and in an
    export of the errors only; a full export writes every entry, those
    without error numbering [total_count - error_count]; an export of
    the errors only writes none of these, and each entry it writes keeps
    the label it has in the full export. *)
Theorem export_agrees_with_counters (lm : LogManager) (only_errors : bool) :
  counters_agree lm →
  length (List.filter (λ item, has_error_entry item.2)
            (export_entries lm only_errors)) = error_count lm
  ∧ length (List.filter
              (λ item, is_checked item.2 && negb (has_error_entry item.2))
              (export_entries lm only_errors)) + error_count lm
    = (if only_errors then error_count lm else total_count lm)
  ∧ export_entries lm false
    = imap (λ i log, (S i, length (logs lm), log)) (logs lm)
  ∧ ∀ item, item ∈ export_entries lm true
            ↔ item ∈ export_entries lm false
              ∧ (has_error_entry item.2 || is_process_error item.2) = true.
Proof.
  intros [Htotal Herror]. rewrite Htotal, Herror.
  assert (Hshape : ∀ only,
            export_entries lm only
            = omap (λ x, if skipped only x.1 then None else Some x.2)
                (imap (λ i log, (log, (S i, length (logs lm), log)))
                   (logs lm))).
  { intros only. unfold export_entries.
    apply (export_entries_labelled only (logs lm)
             (λ i log, (S i, length (logs lm), log))). }
  destruct (written_counts only_errors (logs lm)
              (λ i log, (S i, length (logs lm), log)) (λ _ _, eq_refl))
    as (H1 & H2 & _).
  destruct (written_counts false (logs lm)
              (λ i log, (S i, length (logs lm), log)) (λ _ _, eq_refl))
    as (_ & _ & H3 & _).
  destruct (written_counts true (logs lm)
              (λ i log, (S i, length (logs lm), log)) (λ _ _, eq_refl))
    as (_ & _ & _ & H4).
  cbn zeta in H1, H2, H3, H4. rewrite !Hshape.
  split; [exact H1|]. split; [exact H2|].
  rewrite (H3 eq_refl). split; [done|].
  intros item. rewrite H4. unfold skipped.
  destruct (has_error_entry item.2), (is_process_error item.2);
    simpl; split; intros [? ?]; done.
Qed.
End ExportedLog.

(* ===================================================================== *)
(** ** The claims that fail as stated *)
(* ===================================================================== *)

(** C3 as stated: the spans returned and the candidates dropped by the
    exclusion check tile the text.  For the paragraph ["Hi! "] the only
    such range is [[0, 3)]: the blank remainder [[3, 4)] is examined and
    put aside because it is empty, so [[0, 4)] is not covered. *)
Lemma partition_as_stated_fails :
  ∃ paragraph log,
    paragraph_text paragraph = U "Hi! "
    ∧ log = [{| cand_start := 0; cand_end := 3;
                cand_sentence := U "Hi!"; cand_excluded := false |};
             {| cand_start := 3; cand_end := 4;
                cand_sentence := []; cand_excluded := false |}]
    ∧ ∀ (db : UnicodeDB) (self : DocProcessor),
        segment is_excluded_paragraph (InParagraph 0) paragraph self
        = Some (append_sentence self (U "Hi!") (InParagraph 0 0 3 (U "Hi!")),
                log)
        ∧ returned_or_excluded log = [(0, 3)]
        ∧ ¬ tiles 0 (length (paragraph_text paragraph))
              (returned_or_excluded log).
Proof.
  exists (Sample.paragraph "Hi! "). eexists. split; [reflexivity|].
  split; [reflexivity|]. intros db self.
  split; [vm_compute; reflexivity|]. split; [vm_compute; reflexivity|].
  vm_compute. intros (_ & _ & Hend). discriminate.
Qed.

(** C7 as stated: the default path carries the suffix [_proofed].  For
    [report.docx] the code derives [report_AI校对.docx]. *)
Lemma default_path_is_not_proofed :
  default_output_path Sample.empty_disk (U "report.docx")
  = U "report_AI校对.docx"
  ∧ default_output_path Sample.empty_disk (U "report.docx")
    ≠ U "report_proofed.docx".
Proof. split; [vm_compute; reflexivity|vm_compute; discriminate]. Qed.

(* ===================================================================== *)
(** ** The theorems at concrete inputs *)
(* ===================================================================== *)

Section Witnesses.
#[local] Existing Instance Sample.ascii_only.


Lemma candidates_tile_paragraph_witness :
  let paragraph := Sample.paragraph "Hi!  Go.  (1). x" in
  let text := paragraph_text paragraph in
  let log := examined is_excluded_paragraph paragraph in
  truthy (strip text) = true
  ∧ (∀ self, segment is_excluded_paragraph (InParagraph 0) paragraph self
             = Some (extend self (records_of (InParagraph 0) log), log))
  ∧ tiles 0 (length text) (span <$> log)
  ∧ (∀ i c, log !! i = Some c →
       accepted c = false → cand_excluded c = false →
       S i = length log
       ∧ blank (slice (cand_start c) (cand_end c) text) = true).
Proof.
  intros paragraph text log. split; [reflexivity|].
  exact (candidates_tile_paragraph
           is_excluded_paragraph (InParagraph 0) paragraph eq_refl).
Defined.

Lemma catalog_order_witness :
  let doc := Sample.small_document in
  let self := Sample.loaded "a.docx" doc in
  document self = Some doc
  ∧ (catalog doc).*1 = [U "Hi!"; U "Go on"; U "Yes?"; U "No"; U "Ok!"]
  ∧ ∃ self',
      split_into_sentences self = Some (self', (catalog doc).*1)
      ∧ sentences self' = (catalog doc).*1
      ∧ sentence_positions self' = (catalog doc).*2
      ∧ (∀ i P, Forall (λ r, locator r.2 = TopLevel i)
                  (paragraph_records i P))
      ∧ (∀ t r c p P, Forall (λ rec, locator rec.2 = InCell t r c p)
                        (cell_paragraph_records t r c p P))
      ∧ (∀ P0 P1 P2,
           paragraphs doc = [P0; P1] → tables doc = [[[[P2]]]] →
           catalog doc = paragraph_records 0 P0 ++ paragraph_records 1 P1
                           ++ cell_paragraph_records 0 0 0 0 P2).
Proof.
  intros doc self. split; [reflexivity|].
  split; [vm_compute; reflexivity|].
  apply (catalog_order self doc). reflexivity.
Defined.


Lemma default_output_path_suffix_witness :
  let fs := Sample.empty_disk in
  let self := Sample.two_in_one in
  let doc := {| paragraphs := [Sample.paragraph "Yes? No!"]; tables := [] |} in
  let fp := U "/tmp/report.docx" in
  let name := U "report" in
  let ext := U ".docx" in
  let timestamp := strftime_YmdHMS (now fs) in
  let plain := Path.join (Path.dirname fp) (name ++ U "_AI校对" ++ ext) in
  let stamped :=
    Path.join (Path.dirname fp)
      (name ++ U "_AI校对" ++ U "_" ++ timestamp ++ ext) in
  document self = Some doc
  ∧ file_path self = Some fp
  ∧ Path.splitext (Path.basename fp) = (name, ext)
  ∧ plain = U "/tmp/report_AI校对.docx"
  ∧ stamped = U "/tmp/report_AI校对_20250309120005.docx"
  ∧ name ++ ext = Path.basename fp
  ∧ (ext = [] ∨ ∃ e, ext = Path.extsep :: e)
  ∧ length timestamp = 14
  ∧ forallb is_ascii_digit timestamp = true
  ∧ default_output_path fs fp
    = (if path_exists fs plain then stamped else plain)
  ∧ (write fs doc (default_output_path fs fp) = None →
     save_document fs self None = Saved (default_output_path fs fp)).
Proof.
  intros fs self doc fp name ext timestamp plain stamped.
  split; [reflexivity|]. split; [reflexivity|].
  split; [vm_compute; reflexivity|].
  split; [vm_compute; reflexivity|]. split; [vm_compute; reflexivity|].
  apply (default_output_path_suffix fs self doc fp name ext);
    [reflexivity|reflexivity|vm_compute; reflexivity].
Defined.

Lemma field_check_accepts_list_of_names_witness :
  let json_loads := Sample.loads_list_of_names in
  let sentence := U "Hello there" in
  let content := Sample.list_of_names in
  truthy (strip sentence) = true
  ∧ json_loads (json_text content) = Some (JList (JStr <$> required_fields))
  ∧ proofread_sentence json_loads
      (Response 200 (inr (chat_response content))) sentence
    = Success (JList (JStr <$> required_fields))
  ∧ forallb (λ key, has_field key (JList (JStr <$> required_fields)))
      required_fields = false.
Proof.
  intros json_loads sentence content.
  split; [reflexivity|]. split; [vm_compute; reflexivity|].
  apply (field_check_accepts_list_of_names json_loads sentence content);
    [reflexivity|vm_compute; reflexivity].
Defined.


Lemma classifier_failure_is_not_fatal_witness :
  let json_loads : str → option json := λ _, None in
  let py_str : json → str := λ _, [] in
  let path := U "a.docx" in
  let lm := Sample.fresh_log in
  let timeout := Raised (OtherError (U "timeout")) in
  let dp := Sample.loaded "a.docx" Sample.small_document in
  (open_document Sample.unreadable path = None
   ∧ run json_loads py_str Sample.unreadable path lm
     = Some ([finished false LoadFailed], lm))
  ∧ (is_running Sample.offline 0 = true
     ∧ proofread_sentence json_loads (http Sample.offline 0 (U "Hi!")) (U "Hi!")
       = Failure timeout
     ∧ sentence_loop json_loads py_str Sample.offline 2 0
         [U "Hi!"; U "Go on"] dp lm
       = (let '(later, dp', lm', exit) :=
           sentence_loop json_loads py_str Sample.offline 2 1
             [U "Go on"] dp (log_error lm (U "Hi!") timeout).1 in
         ([progressUpdated 1 2; Classify (U "Hi!");
           logUpdated (ProcessError (U "Hi!") timeout)] ++ later,
          dp', lm', exit))
     ∧ logs (log_error lm (U "Hi!") timeout).1
       = logs lm ++ [ProcessFailed (U "Hi!") timeout]
     ∧ error_count (log_error lm (U "Hi!") timeout).1 = error_count lm
     ∧ total_count (log_error lm (U "Hi!") timeout).1 = total_count lm
     ∧ (logs lm ++ [ProcessFailed (U "Hi!") timeout])
         `prefix_of`
         logs (sentence_loop json_loads py_str Sample.offline 2 0
                 [U "Hi!"; U "Go on"] dp lm).1.2)
  ∧ (truthy path = true
     ∧ open_document Sample.offline path = Some Sample.small_document
     ∧ catalog Sample.small_document ≠ []
     ∧ (∀ j, is_running Sample.offline j = true)
     ∧ (∀ j s, failure_or_object
                 (proofread_sentence json_loads (http Sample.offline j s) s))
     ∧ ∃ events dp lm1,
         classified events = (catalog Sample.small_document).*1
         ∧ file_path dp = Some path
         ∧ is_Some (document dp)
         ∧ length (logs lm1) = length (catalog Sample.small_document)
         ∧ (∀ j s, (catalog Sample.small_document).*1 !! j = Some s →
              ∃ entry,
                logs lm1 !! j = Some entry
                ∧ records (proofread_sentence json_loads
                             (http Sample.offline j s) s) s entry)
         ∧ run json_loads py_str Sample.offline path lm
           = Some match save_document (storage Sample.offline) dp None with
                  | Saved p =>
                      (events ++ [logUpdated (finish_logging lm1 p).2;
                                  finished true (SaveOutcome (Saved p))],
                       (finish_logging lm1 p).1)
                  | failure =>
                      (events ++ [finished false (SaveOutcome failure)], lm1)
                  end).
Proof.
  intros json_loads py_str path lm timeout dp.
  assert (Hfail : ∀ j s, failure_or_object
            (proofread_sentence json_loads (http Sample.offline j s) s)).
  { intros j s. unfold proofread_sentence. simpl.
    destruct (negb (truthy (strip s))); exact I. }
  split; [|split].
  - split; [reflexivity|].
    exact (proj1 (classifier_failure_is_not_fatal json_loads py_str
                    Sample.unreadable path lm) eq_refl).
  - split; [reflexivity|]. split; [reflexivity|].
    exact (proj1 (proj2 (classifier_failure_is_not_fatal json_loads py_str
                           Sample.offline path lm))
             2 0 (U "Hi!") [U "Go on"] dp lm timeout eq_refl eq_refl).
  - split; [reflexivity|]. split; [reflexivity|].
    split; [vm_compute; discriminate|].
    split; [reflexivity|]. split; [exact Hfail|].
    exact (proj2 (proj2 (classifier_failure_is_not_fatal json_loads py_str
                           Sample.offline path lm))
             Sample.small_document eq_refl eq_refl
             ltac:(vm_compute; discriminate) (λ _, eq_refl) Hfail).
Defined.
End Witnesses.

(* ===================================================================== *)
(** ** The further properties on sample inputs *)
(* ===================================================================== *)

Section MoreWitnesses.
#[local] Existing Instance Sample.ascii_only.

Lemma split_catalog_in_step_witness :
  let doc := Sample.small_document in
  let self := Sample.loaded "a.docx" doc in
  let self' := {| file_path := file_path self; document := Some doc;
                  sentences := (catalog doc).*1;
                  sentence_positions := (catalog doc).*2 |} in
  document self = Some doc
  ∧ split_into_sentences self = Some (self', (catalog doc).*1)
  ∧ (catalog doc).*1 = sentences self'
  ∧ length (sentences self') = length (sentence_positions self')
  ∧ ∀ i pos, sentence_positions self' !! i = Some pos →
      ∃ s, sentences self' !! i = Some s ∧ describes doc (s, pos).
Proof.
  intros doc self self'.
  assert (Hsplit : split_into_sentences self = Some (self', (catalog doc).*1))
    by (vm_compute; reflexivity).
  split; [reflexivity|]. split; [exact Hsplit|].
  exact (split_catalog_in_step self self' doc (catalog doc).*1 eq_refl Hsplit).
Defined.

Lemma add_comment_after_split_witness :
  let doc := Sample.small_document in
  let self := Sample.loaded "a.docx" doc in
  let self' := {| file_path := file_path self; document := Some doc;
                  sentences := (catalog doc).*1;
                  sentence_positions := (catalog doc).*2 |} in
  let result := (catalog doc).*1 in
  document self = Some doc
  ∧ split_into_sentences self = Some (self', result)
  ∧ (- Z.of_nat (length result) ≤ -1 < Z.of_nat (length result))%Z
  ∧ (add_comment self' (-1) (U "check")).2 = true.
Proof.
  intros doc self self' result.
  assert (Hsplit : split_into_sentences self = Some (self', result))
    by (vm_compute; reflexivity).
  assert (Hrange : (- Z.of_nat (length result) ≤ -1 < Z.of_nat (length result))%Z)
    by (split; vm_compute; [discriminate|reflexivity]).
  split; [reflexivity|]. split; [exact Hsplit|]. split; [exact Hrange|].
  exact (add_comment_after_split self self' doc result (-1) (U "check")
           eq_refl Hsplit Hrange).
Defined.

Lemma add_comment_failure_changes_nothing_witness :
  let self := Sample.two_in_one in
  length (sentences self) = length (sentence_positions self)
  ∧ (add_comment self 2 (U "check")).2 = false
  ∧ (add_comment self 2 (U "check")).1 = self.
Proof.
  intros self. split; [reflexivity|]. split; [reflexivity|].
  exact (add_comment_failure_changes_nothing self 2 (U "check")
           eq_refl eq_refl).
Defined.

Lemma add_comment_keeps_records_valid_witness :
  let self := Sample.two_in_one in
  let par := Sample.paragraph "Yes? No!" in
  let doc := {| paragraphs := [par]; tables := [] |} in
  let r := (U "Yes?", InParagraph 0 0 4 (U "Yes?")) in
  document self = Some doc
  ∧ describes doc r
  ∧ ∃ doc', document (add_comment self 1 (U "check")).1 = Some doc'
            ∧ describes doc' r.
Proof.
  intros self par doc r.
  assert (Hr : describes doc r).
  { exists par. split; [reflexivity|]. split; [reflexivity|].
    split; [vm_compute; lia|]. split; [reflexivity|]. discriminate. }
  split; [reflexivity|]. split; [exact Hr|].
  exact (add_comment_keeps_records_valid self doc 1 (U "check") r eq_refl Hr).
Defined.

Lemma proofread_success_means_witness :
  let json_loads := Sample.loads_list_of_names in
  let http := Response 200 (inr (chat_response Sample.list_of_names)) in
  let sentence := U "Hello there" in
  let r := JList (JStr <$> required_fields) in
  proofread_sentence json_loads http sentence = Success r
  ∧ message_content (chat_response Sample.list_of_names)
    = Some Sample.list_of_names
  ∧ truthy (strip sentence) = true
  ∧ (∃ response_data content,
       http = Response 200 (inr response_data)
       ∧ message_content response_data = Some content
       ∧ json_loads (json_text content) = Some r)
  ∧ ∀ key, key ∈ required_fields → py_in key r = inr true.
Proof.
  intros json_loads http sentence r.
  assert (Hs : proofread_sentence json_loads http sentence = Success r)
    by (vm_compute; reflexivity).
  split; [exact Hs|]. split; [reflexivity|].
  exact (proj1 (proofread_success_means json_loads http sentence r) Hs).
Defined.


Lemma fenced_reply_is_unwrapped_witness :
  let body := U " {} " in
  (backtick ∉ body)
  ∧ json_text (fence ++ U "json" ++ body ++ fence) = U "{}"
  ∧ (startswith (U "json") body = false →
     json_text (fence ++ body ++ fence) = U "{}").
Proof.
  intros body.
  assert (Hbody : backtick ∉ body).
  { intros Hin.
    repeat (apply elem_of_cons in Hin as [Hin|Hin]; [discriminate|]).
    by apply elem_of_nil in Hin. }
  split; [exact Hbody|].
  exact (fenced_reply_is_unwrapped body Hbody).
Defined.

Lemma validate_config_verdict_witness :
  let self := Scenario.manager in
  let d := Scenario.settings in
  ConfigManager.config self = JDict d
  ∧ (ConfigManager.validate_config self = inr ConfigManager.Valid
     ↔ Forall (filled d) ConfigManager.required
       ∧ ∃ url, dict_get (U "api_url") d = Some (JStr url)
                ∧ has_scheme url = true)
  ∧ (∀ field,
       ConfigManager.validate_config self
       = inr (ConfigManager.MissingField field)
       ↔ ∃ before after,
           ConfigManager.required = before ++ field :: after
           ∧ Forall (filled d) before ∧ ¬ filled d field)
  ∧ (∀ e, ConfigManager.validate_config self = inl e
       → e = AttributeError
         ∧ Forall (filled d) ConfigManager.required
         ∧ ∃ v, dict_get (U "api_url") d = Some v ∧ ∀ url, v ≠ JStr url).
Proof.
  intros self d. split; [reflexivity|].
  exact (validate_config_verdict self d eq_refl).
Defined.

Lemma update_config_merges_witness :
  let disk := Scenario.blank_disk in
  let self := Scenario.manager in
  let d := Scenario.settings in
  let new := Scenario.new_model in
  ConfigManager.config self = JDict d
  ∧ NoDup new.*1
  ∧ ∃ d',
      (ConfigManager.update_config disk self new).1
      = {| ConfigManager.config_file := ConfigManager.config_file self;
           ConfigManager.default_config := ConfigManager.default_config self;
           ConfigManager.config := JDict d' |}
      ∧ (∀ key, dict_get key d'
                = match dict_get key new with
                  | Some v => Some v
                  | None => dict_get key d
                  end)
      ∧ (ConfigManager.update_config disk self new).2
        = bool_decide (ConfigManager.dump disk (ConfigManager.config_file self)
                         (JDict d') = None).
Proof.
  intros disk self d new.
  assert (Hnd : NoDup new.*1)
    by (apply NoDup_singleton).
  split; [reflexivity|]. split; [exact Hnd|].
  exact (update_config_merges disk self d new eq_refl Hnd).
Defined.

Lemma dialog_config_validates_witness :
  let disk := Scenario.blank_disk in
  let manager := Scenario.manager in
  let url := U " ftp://api.example.com " in
  let model := U "reader" in
  let key := U "secret" in
  let prompt := JStr [] in
  let config := ConfigDialog.get_config url model key prompt in
  ConfigManager.config manager = JDict Scenario.settings
  ∧ ConfigDialog.save_config url model key prompt = Some config
  ∧ ConfigManager.validate_config
      (ConfigManager.update_config disk manager config).1
    = inr ConfigManager.BadUrl.
Proof.
  intros disk manager url model key prompt config.
  assert (Hsave : ConfigDialog.save_config url model key prompt = Some config)
    by (vm_compute; reflexivity).
  split; [reflexivity|]. split; [exact Hsave|].
  exact (dialog_config_validates disk manager Scenario.settings
           url model key prompt config eq_refl Hsave).
Defined.

Lemma client_follows_manager_witness :
  let disk := Scenario.blank_disk in
  let manager := Scenario.manager in
  let new := Scenario.new_model in
  ConfigManager.config manager = JDict Scenario.settings
  ∧ NoDup new.*1
  ∧ ∃ client,
      ApiClient.init (Some (ConfigManager.get_config manager)) = inr client
      ∧ in_sync manager client
      ∧ ∀ client0, in_sync manager client0 →
          ∃ manager' client',
            main_window_update_config disk manager client0 new
            = (manager', client', None)
            ∧ in_sync manager' client'.
Proof.
  intros disk manager new.
  assert (Hnd : NoDup new.*1)
    by (apply NoDup_singleton).
  split; [reflexivity|]. split; [exact Hnd|].
  exact (client_follows_manager disk manager Scenario.settings new
           eq_refl Hnd).
Defined.

Lemma success_means_classified_and_saved_witness :
  let w := Scenario.online in
  let path := U "a.docx" in
  let events := [progressUpdated 1 1; Classify (U "Hi!");
                 logUpdated (FoundError (U "Hi!") (U "typo"));
                 logUpdated (Summary 1 1 Scenario.written)] in
  let message := SaveOutcome (Saved Scenario.written) in
  let lm' := {| logs := [Checked (U "Hi!") true (U "typo") (U "Hi.")];
                error_count := 1; total_count := 1;
                save_path := Some Scenario.written |} in
  run Scenario.loads_verdict Scenario.no_str w path Sample.fresh_log
  = Some (events ++ [finished true message], lm')
  ∧ ∃ doc front,
      open_document w path = Some doc
      ∧ classified events = (catalog doc).*1
      ∧ message = SaveOutcome (Saved (default_output_path (storage w) path))
      ∧ save_path lm' = Some (default_output_path (storage w) path)
      ∧ events = front ++ [logUpdated
                             (Summary (total_count lm') (error_count lm')
                                (default_output_path (storage w) path))]
      ∧ quiet front = true.
Proof.
  intros w path events message lm'.
  assert (Hrun : run Scenario.loads_verdict Scenario.no_str w path
                   Sample.fresh_log
                 = Some (events ++ [finished true message], lm'))
    by (vm_compute; reflexivity).
  split; [exact Hrun|].
  exact (success_means_classified_and_saved
           Scenario.loads_verdict Scenario.no_str w path Sample.fresh_log
           events message lm' Hrun).
Defined.

Lemma run_keeps_counters_witness :
  let w := Scenario.flaky in
  let path := U "a.docx" in
  let lm := Sample.fresh_log in
  let timeout := Raised (OtherError (U "timeout")) in
  let events := [progressUpdated 1 2; Classify (U "Hi!");
                 logUpdated (ProcessError (U "Hi!") timeout);
                 progressUpdated 2 2; Classify (U "Go on");
                 logUpdated (FoundError (U "Go on") (U "typo"));
                 logUpdated (Summary 1 1 Scenario.written);
                 finished true (SaveOutcome (Saved Scenario.written))] in
  let lm' := {| logs := [ProcessFailed (U "Hi!") timeout;
                         Checked (U "Go on") true (U "typo") (U "Hi.")];
                error_count := 1; total_count := 1;
                save_path := Some Scenario.written |} in
  counters_agree lm
  ∧ run Scenario.loads_verdict Scenario.no_str w path lm = Some (events, lm')
  ∧ omap failure_signal events = [(U "Hi!", timeout)]
  ∧ counters_agree lm'
  ∧ total_count lm' + length (omap failed_entry (logs lm')) = length (logs lm')
  ∧ ((omap failure_signal events = [] ∧ lm' = lm)
     ∨ omap failed_entry (logs lm') = omap failure_signal events).
Proof.
  intros w path lm timeout events lm'.
  assert (Hlm : counters_agree lm) by (split; reflexivity).
  assert (Hrun : run Scenario.loads_verdict Scenario.no_str w path lm
                 = Some (events, lm'))
    by (vm_compute; reflexivity).
  split; [exact Hlm|]. split; [exact Hrun|]. split; [reflexivity|].
  exact (run_keeps_counters Scenario.loads_verdict Scenario.no_str
           w path lm events lm' Hlm Hrun).
Defined.

Lemma quiet_loop_leaves_document_witness :
  let w := Sample.offline in
  let json_loads := Scenario.loads_nothing in
  let dp := Sample.loaded "a.docx" Sample.small_document in
  (∀ j s, asks_nothing (proofread_sentence json_loads (http w j s) s))
  ∧ (sentence_loop json_loads Scenario.no_str w 2 0 [U "Hi!"; U "Go on"]
       dp Sample.fresh_log).1.1.2 = dp.
Proof.
  intros w json_loads dp.
  assert (Hquiet : ∀ j s,
            asks_nothing (proofread_sentence json_loads (http w j s) s)).
  { intros j s. unfold proofread_sentence.
    destruct (truthy (strip s)); exact I. }
  split; [exact Hquiet|].
  exact (quiet_loop_leaves_document json_loads Scenario.no_str w 2
           [U "Hi!"; U "Go on"] 0 dp Sample.fresh_log Hquiet).
Defined.

Lemma run_progress_counts_classified_witness :
  let w := Scenario.online in
  let path := U "a.docx" in
  let lm := Sample.fresh_log in
  let doc := Scenario.greeting in
  let events := [progressUpdated 1 1; Classify (U "Hi!");
                 logUpdated (FoundError (U "Hi!") (U "typo"));
                 logUpdated (Summary 1 1 Scenario.written);
                 finished true (SaveOutcome (Saved Scenario.written))] in
  let lm' := {| logs := [Checked (U "Hi!") true (U "typo") (U "Hi.")];
                error_count := 1; total_count := 1;
                save_path := Some Scenario.written |} in
  open_document w path = Some doc
  ∧ run Scenario.loads_verdict Scenario.no_str w path lm = Some (events, lm')
  ∧ classified events `prefix_of` (catalog doc).*1
  ∧ progress_of events
    = (λ j, (S j, length (catalog doc))) <$> seq 0 (length (classified events))
  ∧ ∀ j, j < length (classified events) → is_running w j = true.
Proof.
  intros w path lm doc events lm'.
  assert (Hrun : run Scenario.loads_verdict Scenario.no_str w path lm
                 = Some (events, lm'))
    by (vm_compute; reflexivity).
  split; [reflexivity|]. split; [exact Hrun|].
  exact (run_progress_counts_classified Scenario.loads_verdict Scenario.no_str
           w path lm doc events lm' eq_refl Hrun).
Defined.

Lemma export_agrees_with_counters_witness :
  let lm := {| logs := [Checked (U "Hi!") true (U "typo") (U "Hi.");
                        Checked (U "Go on") false [] [];
                        ProcessFailed (U "Yes?") NoContent];
               error_count := 1; total_count := 2;
               save_path := Some Scenario.written |} in
  counters_agree lm
  ∧ export_entries lm true
    = [(1, 3, Checked (U "Hi!") true (U "typo") (U "Hi."));
       (3, 3, ProcessFailed (U "Yes?") NoContent)]
  ∧ length (List.filter (λ item, has_error_entry item.2)
              (export_entries lm true)) = error_count lm
  ∧ length (List.filter
              (λ item, is_checked item.2 && negb (has_error_entry item.2))
              (export_entries lm true)) + error_count lm
    = error_count lm
  ∧ export_entries lm false
    = imap (λ i log, (S i, length (logs lm), log)) (logs lm)
  ∧ ∀ item, item ∈ export_entries lm true
            ↔ item ∈ export_entries lm false
              ∧ (has_error_entry item.2 || is_process_error item.2) = true.
Proof.
  intros lm.
  assert (Hlm : counters_agree lm) by (split; reflexivity).
  split; [exact Hlm|]. split; [reflexivity|].
  exact (export_agrees_with_counters lm true Hlm).
Defined.
End MoreWitnesses.
